(** * neuroglia.calcium: detrending, rescaling and deconvolution transformers

    A shallow embedding of [neuroglia/calcium.py].

    - A [np.double] is an extended exact rational: a finite value, [nan], or
      an infinity.  Rounding, overflow and the sign of zero are not modelled
      there; [robust_std] is also given over IEEE binary64, where they are.
    - A pandas [DataFrame] is its row count together with the ordered list of
      its named columns.
    - A Python exception is a value of [exn]; a method of a transformer is a
      function from the instance to an outcome and the instance afterwards.
    - [scipy.signal.medfilt], [np.median], [np.minimum] and the other array
      primitives are written out; the Savitzky-Golay smoother, the OASIS
      solver and the natural logarithm of a positive number are parameters. *)

From Stdlib Require Import QArith Qcanon Qround ZArith List Lia.
From Stdlib Require Import PrimFloat.
From stdpp Require Import gmap strings list sorting.

Open Scope Z_scope.
#[local] Set Warnings "-clear-no-such-hyp".

(** ** Exceptions and outcomes *)

Inductive exn : Type :=
| ValueError
| KeyError (key : string)
| NameError (name : string)
| AttributeError (attr : string)
| NotImplementedError
| TypeError
| SolverError.

Inductive result (A : Type) : Type :=
| Ok (a : A)
| Err (e : exn).
Arguments Ok {A} a.
Arguments Err {A} e.

Definition is_Ok {A} (r : result A) : bool :=
  match r with Ok _ => true | Err _ => false end.

(** A computation on an instance of type [S]: the outcome, and the instance
    as the computation leaves it (also when it raises). *)
Definition py (S A : Type) : Type := S -> result A * S.

Definition ret {S A} (a : A) : py S A := fun s => (Ok a, s).
Definition raise {S A} (e : exn) : py S A := fun s => (Err e, s).
Definition bind {S A B} (m : py S A) (k : A -> py S B) : py S B :=
  fun s => match m s with
           | (Ok a, s') => k a s'
           | (Err e, s') => (Err e, s')
           end.
Definition lift {S A} (r : result A) : py S A := fun s => (r, s).

Declare Scope py_scope.
Delimit Scope py_scope with py.
Notation "x <- m ;; k" := (bind m (fun x => k))
  (at level 100, m at next level, right associativity) : py_scope.
Notation "m ;;; k" := (bind m (fun _ => k))
  (at level 100, right associativity) : py_scope.

(** [for a in l: acc = body(a, acc)], leaving the loop at the first exception. *)
Fixpoint for_each {S A B} (l : list A) (body : A -> B -> py S B) (acc : B) : py S B :=
  match l with
  | [] => ret acc
  | a :: l' => bind (body a acc) (for_each l' body)
  end.

(** ** np.double *)

Inductive double : Type :=
| Fin (q : Qc)
| NaN
| PInf
| NInf.

Global Instance double_eq_dec : EqDecision double.
Proof. solve_decision. Defined.

Definition Qcleb (a b : Qc) : bool := Qle_bool (this a) (this b).
Definition Qcltb (a b : Qc) : bool := negb (Qle_bool (this b) (this a)).
Definition Qceqb (a b : Qc) : bool := Qeq_bool (this a) (this b).

Definition is_nan (a : double) : bool :=
  match a with NaN => true | _ => false end.

Definition dneg (a : double) : double :=
  match a with
  | Fin q => Fin (- q)%Qc
  | NaN => NaN
  | PInf => NInf
  | NInf => PInf
  end.

Definition dadd (a b : double) : double :=
  match a, b with
  | NaN, _ | _, NaN => NaN
  | Fin p, Fin q => Fin (p + q)%Qc
  | PInf, NInf | NInf, PInf => NaN
  | PInf, _ | _, PInf => PInf
  | NInf, _ | _, NInf => NInf
  end.

Definition dsub (a b : double) : double := dadd a (dneg b).

(** The sign of a double: [Some true] for negative, [Some false] for
    positive, [None] for zero and nan. *)
Definition dsign (a : double) : option bool :=
  match a with
  | Fin q => if Qcltb q 0%Qc then Some true
             else if Qcltb 0%Qc q then Some false else None
  | NaN => None
  | PInf => Some false
  | NInf => Some true
  end.

Definition inf_of_sign (negative : bool) : double :=
  if negative then NInf else PInf.

Definition dmul (a b : double) : double :=
  match a, b with
  | NaN, _ | _, NaN => NaN
  | Fin p, Fin q => Fin (p * q)%Qc
  | _, _ => match dsign a, dsign b with
            | Some s, Some t => inf_of_sign (xorb s t)
            | _, _ => NaN
            end
  end.

Definition ddiv (a b : double) : double :=
  match a, b with
  | NaN, _ | _, NaN => NaN
  | Fin p, Fin q =>
      if Qceqb q 0%Qc
      then match dsign a with Some s => inf_of_sign s | None => NaN end
      else Fin (p / q)%Qc
  | Fin _, _ => Fin 0%Qc
  | _, Fin q => match dsign a with
                | Some s => inf_of_sign (xorb s (Qcltb q 0%Qc))
                | None => NaN
                end
  | _, _ => NaN
  end.

Definition dabs (a : double) : double :=
  match a with
  | Fin q => Fin (if Qcltb q 0%Qc then - q else q)%Qc
  | NaN => NaN
  | PInf | NInf => PInf
  end.

(** The order [np.sort] uses: -inf, the finite values, +inf, and nan last. *)
Definition dleb (a b : double) : bool :=
  match a, b with
  | _, NaN => true
  | NaN, _ => false
  | NInf, _ => true
  | _, NInf => false
  | _, PInf => true
  | PInf, _ => false
  | Fin p, Fin q => Qcleb p q
  end.

(** [np.minimum] and [np.maximum] on two scalars: nan if either is nan. *)
Definition dminimum (a b : double) : double :=
  match a, b with
  | NaN, _ | _, NaN => NaN
  | _, _ => if dleb a b then a else b
  end.

Definition dmaximum (a b : double) : double :=
  match a, b with
  | NaN, _ | _, NaN => NaN
  | _, _ => if dleb a b then b else a
  end.

(** ** numpy arrays of doubles *)

Abbreviation ndarray := (list double).

Fixpoint insert_sorted (a : double) (l : ndarray) : ndarray :=
  match l with
  | [] => [a]
  | b :: l' => if dleb a b then a :: l else b :: insert_sorted a l'
  end.

(** [np.sort(a)] *)
Definition np_sort (a : ndarray) : ndarray := foldr insert_sorted [] a.

(** [np.median(a)]: nan when [a] holds a nan or is empty; the middle element
    of the sorted array, or the mean of the two middle ones. *)
Definition np_median (a : ndarray) : double :=
  let n := length a in
  let part := np_sort a in
  if existsb is_nan a then NaN
  else if Nat.eqb n 0 then NaN
  else if Nat.odd n then nth (n / 2)%nat part NaN
  else ddiv (dadd (nth (n / 2 - 1)%nat part NaN) (nth (n / 2)%nat part NaN))
            (Fin (Q2Qc 2)).

(** [np.abs(a)], [a - m], [np.minimum(a, m)], [np.maximum(m, a)], [a * m]
    and [m + a] for an array [a] and a scalar [m] *)
Definition np_abs (a : ndarray) : ndarray := map dabs a.
Definition np_sub_scalar (a : ndarray) (m : double) : ndarray :=
  map (fun v => dsub v m) a.
Definition np_minimum_scalar (a : ndarray) (m : double) : ndarray :=
  map (fun v => dminimum v m) a.
Definition np_maximum_scalar (m : double) (a : ndarray) : ndarray :=
  map (fun v => dmaximum m v) a.
Definition np_mul_scalar (a : ndarray) (m : double) : ndarray :=
  map (fun v => dmul v m) a.
Definition np_add_scalar (m : double) (a : ndarray) : ndarray :=
  map (fun v => dadd m v) a.

(** [a + m] for an array [a] and a scalar [m] *)
Definition np_plus_scalar (a : ndarray) (m : double) : ndarray :=
  map (fun v => dadd v m) a.

Definition is_finite (a : double) : Prop :=
  match a with Fin _ => True | _ => False end.

(** [a - b] for two arrays: elementwise on equal lengths, an array of length
    one is broadcast, any other pair of lengths raises. *)
Definition np_sub (a b : ndarray) : result ndarray :=
  if Nat.eqb (length a) (length b) then Ok (zip_with dsub a b)
  else match a, b with
       | [x], _ => Ok (map (fun v => dsub x v) b)
       | _, [y] => Ok (map (fun v => dsub v y) a)
       | _, _ => Err ValueError
       end.

(** ** scipy.signal.medfilt *)

(** Sample [i] of the array, zero outside it. *)
Definition padded (volume : ndarray) (i : Z) : double :=
  if (i <? 0) then Fin 0%Qc
  else nth (Z.to_nat i) volume (Fin 0%Qc).

(** The [kernel] samples centred at position [i]. *)
Definition neighbourhood (volume : ndarray) (kernel : nat) (i : nat) : ndarray :=
  map (fun j => padded volume (Z.of_nat i + Z.of_nat j - Z.of_nat (kernel / 2)))
      (seq 0 kernel).

Definition order_filter (volume : ndarray) (kernel order : nat) : ndarray :=
  map (fun i => nth order (np_sort (neighbourhood volume kernel i)) (Fin 0%Qc))
      (seq 0 (length volume)).

(** [medfilt(volume, kernel_size)]: the kernel size must be odd (and
    [np.ones(kernel_size)] refuses a negative one); the array is zero-padded,
    also when the kernel is longer than the array. *)
Definition medfilt (volume : ndarray) (kernel_size : Z) : result ndarray :=
  if negb (kernel_size mod 2 =? 1) then Err ValueError
  else if kernel_size <? 0 then Err ValueError
  else Ok (order_filter volume (Z.to_nat kernel_size) (Z.to_nat (kernel_size / 2))).

(** ** pandas.DataFrame *)

Record DataFrame : Type := {
  index_len : nat;
  data : list (string * ndarray)
}.

(** [X.columns] *)
Definition columns (X : DataFrame) : list string := map fst (data X).

(** [X.copy()] *)
Definition copy (X : DataFrame) : DataFrame := X.

Fixpoint assoc (col : string) (d : list (string * ndarray)) : option ndarray :=
  match d with
  | [] => None
  | (c, v) :: d' => if String.eqb c col then Some v else assoc col d'
  end.

(** [X[col].values.astype(np.double)] *)
Definition getitem (X : DataFrame) (col : string) : result ndarray :=
  match assoc col (data X) with
  | Some v => Ok v
  | None => Err (KeyError col)
  end.

Fixpoint assign (col : string) (v : ndarray) (d : list (string * ndarray))
  : list (string * ndarray) :=
  match d with
  | [] => [(col, v)]
  | (c, w) :: d' => if String.eqb c col then (c, v) :: d'
                    else (c, w) :: assign col v d'
  end.

(** [X[col] = v] for an array [v]: the column is replaced where it stands, or
    appended.  The length of [v] must be the length of the index; a frame
    whose index is empty takes the index of a non-empty [v] instead, and its
    other columns are filled with nan. *)
Definition setitem (X : DataFrame) (col : string) (v : ndarray) : result DataFrame :=
  if Nat.eqb (index_len X) 0 && negb (Nat.eqb (length v) 0)
  then Ok {| index_len := length v;
             data := assign col v
                       (map (fun cw => (fst cw, repeat NaN (length v))) (data X)) |}
  else if Nat.eqb (length v) (index_len X)
  then Ok {| index_len := index_len X; data := assign col v (data X) |}
  else Err ValueError.

(** A trace table: unique column names, every column as long as the index. *)
Definition well_formed (X : DataFrame) : Prop :=
  NoDup (columns X) /\ Forall (fun cv => length (snd cv) = index_len X) (data X).

(** ** MedianFilterDetrend *)

Module MedianFilterDetrend.

(** [dict(mf=mf)] *)
Record params : Type := { mf : ndarray }.

(** The instance: [fit_params] is [None] until [fit] creates the attribute. *)
Record t : Type := {
  window : Z;
  peak_std_threshold : double;
  fit_params : option (gmap string params)
}.

Definition __init__ (window : Z) (peak_std_threshold : double) : t :=
  {| window := window; peak_std_threshold := peak_std_threshold;
     fit_params := None |}.

Definition robust_std (x : ndarray) : double :=
  let MAD := np_median (np_abs (np_sub_scalar x (np_median x))) in
  dmul (Fin (Q2Qc (14826 # 10000))) MAD.

Definition fit (X : DataFrame) : py t t :=
  fun self =>
    let self' := {| window := window self;
                    peak_std_threshold := peak_std_threshold self;
                    fit_params := Some ∅ |} in
    (Ok self', self').

(** [self.fit_params[col] = p] *)
Definition set_fit_param (col : string) (p : params) : py t unit :=
  fun self =>
    match fit_params self with
    | None => (Err (AttributeError "fit_params"), self)
    | Some m => (Ok tt, {| window := window self;
                           peak_std_threshold := peak_std_threshold self;
                           fit_params := Some (<[col := p]> m) |})
    end.

Definition transform (X : DataFrame) : py t DataFrame :=
  fun self =>
    for_each (columns X)
      (fun col X_new =>
         tmp_data <- lift (getitem X col) ;;
         mf <- (fun self => lift (medfilt tmp_data (window self)) self) ;;
         mf <- (fun self =>
                  ret (np_minimum_scalar mf
                         (dmul (peak_std_threshold self) (robust_std mf))) self) ;;
         set_fit_param col {| mf := mf |} ;;;
         d <- lift (np_sub tmp_data mf) ;;
         lift (setitem X_new col d))%py
      (copy X) self.

Definition fit_transform (X : DataFrame) : py t DataFrame :=
  (self <- fit X ;; transform X)%py.

End MedianFilterDetrend.

(** ** SavGolFilterDetrend *)

(** [scipy.signal.savgol_filter(x, window_length, polyorder)] with the checks
    of the scipy releases that require an odd window: the order must be below
    the window length, the window length odd and, in the default [interp]
    mode, no longer than the array.  [smooth] is the least-squares smoother. *)
Definition savgol_filter_checked (smooth : ndarray -> Z -> Z -> ndarray)
    (x : ndarray) (window_length polyorder : Z) : result ndarray :=
  if window_length <=? polyorder then Err ValueError
  else if window_length mod 2 =? 0 then Err ValueError
  else if Z.of_nat (length x) <? window_length then Err ValueError
  else Ok (smooth x window_length polyorder).

Module SavGolFilterDetrend.

(** [dict(sgf=sgf)] *)
Record params : Type := { sgf : ndarray }.

Record t : Type := {
  window : Z;
  order : Z;
  fit_params : option (gmap string params)
}.

Definition __init__ (window order : Z) : t :=
  {| window := window; order := order; fit_params := None |}.

Definition fit (X : DataFrame) : py t t :=
  fun self =>
    let self' := {| window := window self; order := order self;
                    fit_params := Some ∅ |} in
    (Ok self', self').

Definition set_fit_param (col : string) (p : params) : py t unit :=
  fun self =>
    match fit_params self with
    | None => (Err (AttributeError "fit_params"), self)
    | Some m => (Ok tt, {| window := window self; order := order self;
                           fit_params := Some (<[col := p]> m) |})
    end.

Section Transform.
(** [scipy.signal.savgol_filter] *)
Variable savgol_filter : ndarray -> Z -> Z -> result ndarray.

Definition transform (X : DataFrame) : py t DataFrame :=
  fun self =>
    for_each (columns X)
      (fun col X_new =>
         tmp_data <- lift (getitem X col) ;;
         sgf <- (fun self =>
                   lift (savgol_filter tmp_data (window self) (order self)) self) ;;
         set_fit_param col {| sgf := sgf |} ;;;
         d <- lift (np_sub tmp_data sgf) ;;
         lift (setitem X_new col d))%py
      (copy X) self.

Definition fit_transform (X : DataFrame) : py t DataFrame :=
  (self <- fit X ;; transform X)%py.
End Transform.

End SavGolFilterDetrend.

(** ** EventRescale *)

Module EventRescale.

Record t : Type := {
  log_transform : bool;
  scale : double;
  fit_params : option (gmap string unit)
}.

Definition __init__ (log_transform : bool) (scale : double) : t :=
  {| log_transform := log_transform; scale := scale; fit_params := None |}.

Definition fit (X : DataFrame) : py t t :=
  fun self =>
    let self' := {| log_transform := log_transform self; scale := scale self;
                    fit_params := Some ∅ |} in
    (Ok self', self').

Section Transform.
(** The natural logarithm of a positive finite double. *)
Variable ln : Qc -> Qc.

(** [np.log] on one double: nan below zero, -inf at zero; a warning is
    issued there, no exception. *)
Definition dlog (a : double) : double :=
  match a with
  | Fin q => if Qcltb q 0%Qc then NaN
             else if Qceqb q 0%Qc then NInf
             else Fin (ln q)
  | NaN => NaN
  | PInf => PInf
  | NInf => NaN
  end.

Definition np_log (a : ndarray) : ndarray := map dlog a.

Definition transform (X : DataFrame) : py t DataFrame :=
  fun self =>
    for_each (columns X)
      (fun col X_new =>
         tmp_data <- lift (getitem X col) ;;
         tmp_data <- (fun self => ret (np_mul_scalar tmp_data (scale self)) self) ;;
         tmp_data <- (fun self =>
                        ret (if log_transform self
                             then np_log (np_add_scalar (Fin 1%Qc) tmp_data)
                             else tmp_data) self) ;;
         lift (setitem X_new col tmp_data))%py
      (copy X) self.

Definition fit_transform (X : DataFrame) : py t DataFrame :=
  (self <- fit X ;; transform X)%py.
End Transform.

End EventRescale.

(** ** OASISInferer *)

Module OASISInferer.

(** [dict(b=b, g=g, lam=lam)] *)
Record params : Type := { b : double; g : list double; lam : double }.

(** What [oasis.functions.deconvolve] returns: [(c, s, b, g, lam)]. *)
Record solution : Type := {
  sol_c : ndarray;
  sol_s : ndarray;
  sol_b : double;
  sol_g : list double;
  sol_lam : double
}.

Record t : Type := {
  output : string;
  cfg_g : list (option double);
  cfg_sn : option double;
  cfg_b : option double;
  b_nonneg : bool;
  optimize_g : Z;
  penalty : Z;
  kwargs : list (string * double);
  fit_params : option (gmap string params)
}.

Definition with_fit_params (self : t) (fp : option (gmap string params)) : t :=
  {| output := output self; cfg_g := cfg_g self; cfg_sn := cfg_sn self;
     cfg_b := cfg_b self; b_nonneg := b_nonneg self;
     optimize_g := optimize_g self; penalty := penalty self;
     kwargs := kwargs self; fit_params := fp |}.

Definition __init__ (output : string) (g : list (option double))
    (sn b : option double) (b_nonneg : bool) (optimize_g penalty : Z)
    (kwargs : list (string * double)) : t :=
  {| output := output; cfg_g := g; cfg_sn := sn; cfg_b := b;
     b_nonneg := b_nonneg; optimize_g := optimize_g; penalty := penalty;
     kwargs := kwargs; fit_params := None |}.

Definition fit (X : DataFrame) : py t t :=
  fun self => let self' := with_fit_params self (Some ∅) in (Ok self', self').

Definition set_fit_param (col : string) (p : params) : py t unit :=
  fun self =>
    match fit_params self with
    | None => (Err (AttributeError "fit_params"), self)
    | Some m => (Ok tt, with_fit_params self (Some (<[col := p]> m)))
    end.

Section Transform.
(** [oasis.functions.deconvolve(y, g, sn, b, b_nonneg, optimize_g,
    penalty, **kwargs)] *)
Variable deconvolve :
  ndarray -> list (option double) -> option double -> option double ->
  bool -> Z -> Z -> list (string * double) -> result solution.

Definition transform (X : DataFrame) : py t DataFrame :=
  fun self =>
    for_each (columns X)
      (fun col X_new =>
         y <- lift (getitem X col) ;;
         r <- (fun self =>
                 lift (deconvolve y (cfg_g self) (cfg_sn self) (cfg_b self)
                         (b_nonneg self) (optimize_g self) (penalty self)
                         (kwargs self)) self) ;;
         set_fit_param col {| b := sol_b r; g := sol_g r; lam := sol_lam r |} ;;;
         out <- (fun self => ret (output self) self) ;;
         if String.eqb out "denoised" then lift (setitem X_new col (sol_c r))
         else if String.eqb out "spikes"
              then lift (setitem X_new col
                           (np_maximum_scalar (Fin 0%Qc) (sol_s r)))
              else raise NotImplementedError)%py
      (copy X) self.

Definition fit_transform (X : DataFrame) : py t DataFrame :=
  (self <- fit X ;; transform X)%py.
End Transform.

End OASISInferer.

(** ** normalize_trace and Normalize *)

(** The names bound at module level in [calcium.py]: its four imports and the
    classes and the function it defines.  Every other global a body mentions
    is looked up among Python's builtins, which hold no [pd], [df] or
    [h5py]. *)
Definition module_globals : list string :=
  ["np"; "TransformerMixin"; "BaseEstimator"; "deconvolve"; "medfilt";
   "savgol_filter"; "MedianFilterDetrend"; "SavGolFilterDetrend";
   "EventRescale"; "OASISInferer"; "TraceTablizer"; "normalize_trace";
   "Normalize"].

(** Reading the global [name]. *)
Definition global (name : string) : result unit :=
  if existsb (String.eqb name) module_globals then Ok tt
  else Err (NameError name).

(** [np.percentile(x, percentile)] on a non-empty array, by linear
    interpolation between the two nearest ranks. *)
Definition np_percentile (x : ndarray) (percentile : Qc) : result double :=
  if Qcltb percentile 0%Qc || Qcltb (Q2Qc 100) percentile then Err ValueError
  else if existsb is_nan x then Ok NaN
  else
    let n := length x in
    let a := np_sort x in
    let virtual := (percentile / Q2Qc 100 * Q2Qc (inject_Z (Z.of_nat (n - 1))))%Qc in
    let lo := Qfloor (this virtual) in
    let hi := Z.min (lo + 1) (Z.of_nat (n - 1)) in
    let frac := (virtual - Q2Qc (inject_Z lo))%Qc in
    let below := nth (Z.to_nat lo) a NaN in
    let above := nth (Z.to_nat hi) a NaN in
    Ok (dadd below (dmul (dsub above below) (Fin frac))).

Fixpoint mapM_result {A B} (f : A -> result B) (l : list A) : result (list B) :=
  match l with
  | [] => Ok []
  | a :: l' => match f a with
               | Err e => Err e
               | Ok b => match mapM_result f l' with
                         | Err e => Err e
                         | Ok bs => Ok (b :: bs)
                         end
               end
  end.

(** [trace.rolling(window=window, center=True).apply(func=p)]: position [i]
    takes the [window] samples ending [(window - 1) // 2] places after [i];
    it is nan where that range leaves the trace or holds a nan. *)
Definition rolling_apply (p : ndarray -> result double) (trace : ndarray)
    (window : nat) : result ndarray :=
  let n := length trace in
  let offset := ((window - 1) / 2)%nat in
  mapM_result
    (fun i =>
       if ((window <=? i + offset + 1) && (i + offset <? n))%nat
       then let w := firstn window (skipn (i + offset + 1 - window) trace) in
            if existsb is_nan w then Ok NaN else p w
       else Ok NaN)
    (seq 0 n).

(** [baseline.fillna(method='bfill')]: a nan takes the next value that is not nan. *)
Fixpoint bfill (a : ndarray) : ndarray :=
  match a with
  | [] => []
  | v :: a' => let r := bfill a' in
               (if is_nan v then hd NaN r else v) :: r
  end.

(** [baseline.fillna(method='ffill')]: a nan takes the last value that is not nan. *)
Fixpoint ffill_from (last : double) (a : ndarray) : ndarray :=
  match a with
  | [] => []
  | v :: a' => let v' := if is_nan v then last else v in
               v' :: ffill_from v' a'
  end.
Definition ffill (a : ndarray) : ndarray := ffill_from NaN a.

(** The statements of [normalize_trace] after its first one. *)
Definition normalize_trace_body (trace : ndarray) (window : Z) (percentile : Qc)
  : result ndarray :=
  if window <? 1 then Err ValueError
  else
    match rolling_apply (fun x => np_percentile x percentile) trace
                        (Z.to_nat window) with
    | Err e => Err e
    | Ok baseline =>
        let baseline := bfill baseline in
        let baseline := ffill baseline in
        let dF := zip_with dsub trace baseline in
        let F := baseline in
        let dFF := zip_with ddiv dF F in
        Ok dFF
    end.

(** [normalize_trace(trace, window, percentile)]: its first statement,
    [trace = pd.Series(trace)], reads the global [pd]. *)
Definition normalize_trace (trace : ndarray) (window : Z) (percentile : Qc)
  : result ndarray :=
  match global "pd" with
  | Err e => Err e
  | Ok _ => normalize_trace_body trace window percentile
  end.

Module Normalize.

Record t : Type := { window : Z; percentile : Qc }.

Definition __init__ (window : Z) (percentile : Qc) : t :=
  {| window := window; percentile := percentile |}.

Definition fit (X : DataFrame) : py t t := fun self => (Ok self, self).

(** [pd.DataFrame()] *)
Definition empty_frame : DataFrame := {| index_len := 0; data := [] |}.

(** [transform(self, X)] reads the globals [pd] and then [df]; past these
    two reads [df] stands for the argument.  The window and the percentile
    handed to [normalize_trace] are the literals 180 and 8. *)
Definition transform (X : DataFrame) : py t DataFrame :=
  (_ <- lift (global "pd") ;;
   _ <- lift (global "df") ;;
   for_each (columns X)
     (fun col df_norm =>
        trace <- lift (getitem X col) ;;
        dFF <- lift (normalize_trace trace 180 (Q2Qc 8)) ;;
        lift (setitem df_norm col dFF))
     empty_frame)%py.

Definition fit_transform (X : DataFrame) : py t DataFrame :=
  (self <- fit X ;; transform X)%py.

End Normalize.

(** ** Shapes *)

(** The body of a loop over the columns: compute an array for the column,
    then assign it to the column of [X_new]. *)
Definition column_body {S} (compute : string -> py S ndarray)
    (col : string) (X_new : DataFrame) : py S DataFrame :=
  fun s => match compute col s with
           | (Ok d, s') => (setitem X_new col d, s')
           | (Err e, s') => (Err e, s')
           end.

(** The row count and the named column lengths, in column order. *)
Definition shape (X : DataFrame) : nat * list (string * nat) :=
  (index_len X, map (fun cv => (fst cv, length (snd cv))) (data X)).

(** ** The transforms as loops over the columns *)

(** What the loop body of [MedianFilterDetrend.transform] does for a column
    before it assigns to [X_new]. *)
Definition median_compute (X : DataFrame) (col : string)
  : py MedianFilterDetrend.t ndarray :=
  (tmp_data <- lift (getitem X col) ;;
   mf <- (fun self => lift (medfilt tmp_data (MedianFilterDetrend.window self)) self) ;;
   mf <- (fun self =>
            ret (np_minimum_scalar mf
                   (dmul (MedianFilterDetrend.peak_std_threshold self)
                         (MedianFilterDetrend.robust_std mf))) self) ;;
   MedianFilterDetrend.set_fit_param col {| MedianFilterDetrend.mf := mf |} ;;;
   lift (np_sub tmp_data mf))%py.

(** The clamped baseline of a column in the words of the specification:
    [min(medfilt(x, window), peak_std_threshold * (1.4826 *
    median(|medfilt(x, window) - median(medfilt(x, window))|)))]. *)
Definition spec_clamped_baseline (window : Z) (peak_std_threshold : double)
    (x : ndarray) : result ndarray :=
  match medfilt x window with
  | Err e => Err e
  | Ok baseline =>
      let spread :=
        np_median (map (fun v => dabs (dsub v (np_median baseline))) baseline) in
      let ceiling :=
        dmul peak_std_threshold (dmul (Fin (Q2Qc (14826 # 10000))) spread) in
      Ok (map (fun v => dminimum v ceiling) baseline)
  end.

(** The instance of [MedianFilterDetrend] once the columns [done] of [X] are
    processed, having started from [self0]: the configuration is the same,
    and [fit_params] holds the clamped baseline of each of these columns on
    top of what it held. *)
Definition median_recorded (X : DataFrame) (self0 : MedianFilterDetrend.t)
    (done : list string) (self : MedianFilterDetrend.t) : Prop :=
  MedianFilterDetrend.window self = MedianFilterDetrend.window self0
  /\ MedianFilterDetrend.peak_std_threshold self
     = MedianFilterDetrend.peak_std_threshold self0
  /\ match MedianFilterDetrend.fit_params self0 with
     | None => done = [] /\ MedianFilterDetrend.fit_params self = None
     | Some m0 =>
         exists m : gmap string MedianFilterDetrend.params,
           MedianFilterDetrend.fit_params self = Some m
           /\ dom m = dom m0 ∪ list_to_set done
           /\ (forall col, col ∈ done ->
                 exists x b,
                   assoc col (data X) = Some x
                   /\ spec_clamped_baseline (MedianFilterDetrend.window self0)
                        (MedianFilterDetrend.peak_std_threshold self0) x = Ok b
                   /\ m !! col = Some {| MedianFilterDetrend.mf := b |})
           /\ (forall col, col ∉ done -> m !! col = m0 !! col)
     end.

(** The array [MedianFilterDetrend.transform] assigns to the column [col]:
    the column minus its clamped baseline. *)
Definition median_output (X : DataFrame) (self0 : MedianFilterDetrend.t)
    (col : string) (d : ndarray) : Prop :=
  exists x b,
    assoc col (data X) = Some x
    /\ spec_clamped_baseline (MedianFilterDetrend.window self0)
         (MedianFilterDetrend.peak_std_threshold self0) x = Ok b
    /\ d = zip_with dsub x b.

(** The keys of [fit_params] once the columns [done] are processed, having
    started from the instance [self0]; [fp] reads the attribute. *)
Definition keys_recorded {S V} (fp : S -> option (gmap string V)) (self0 : S)
    (done : list string) (self : S) : Prop :=
  match fp self0 with
  | None => done = [] /\ fp self = None
  | Some m0 => exists m, fp self = Some m /\ dom m = dom m0 ∪ list_to_set done
  end.

(** What the loop body of [EventRescale.transform] does for a column before
    it assigns to [X_new]. *)
Definition rescale_compute (ln : Qc -> Qc) (X : DataFrame) (col : string)
  : py EventRescale.t ndarray :=
  (tmp_data <- lift (getitem X col) ;;
   tmp_data <- (fun self =>
                  ret (np_mul_scalar tmp_data (EventRescale.scale self)) self) ;;
   (fun self =>
      ret (if EventRescale.log_transform self
           then EventRescale.np_log ln (np_add_scalar (Fin 1%Qc) tmp_data)
           else tmp_data) self))%py.

(** The rescaled column in the words of the specification: [scale * x], or
    [log(1 + scale * x)], elementwise. *)
Definition spec_rescale (ln : Qc -> Qc) (log_transform : bool) (scale : double)
    (x : ndarray) : ndarray :=
  if log_transform
  then map (fun v => EventRescale.dlog ln (dadd (Fin 1%Qc) (dmul scale v))) x
  else map (fun v => dmul scale v) x.

(** What the loop body of [SavGolFilterDetrend.transform] does for a column
    before it assigns to [X_new]. *)
Definition savgol_compute (savgol_filter : ndarray -> Z -> Z -> result ndarray)
    (X : DataFrame) (col : string) : py SavGolFilterDetrend.t ndarray :=
  (tmp_data <- lift (getitem X col) ;;
   sgf <- (fun self =>
             lift (savgol_filter tmp_data (SavGolFilterDetrend.window self)
                     (SavGolFilterDetrend.order self)) self) ;;
   SavGolFilterDetrend.set_fit_param col {| SavGolFilterDetrend.sgf := sgf |} ;;;
   lift (np_sub tmp_data sgf))%py.

(** What the loop body of [OASISInferer.transform] does for a column before
    it assigns to [X_new]. *)
Definition oasis_compute
    (deconvolve : ndarray -> list (option double) -> option double ->
                  option double -> bool -> Z -> Z -> list (string * double) ->
                  result OASISInferer.solution)
    (X : DataFrame) (col : string) : py OASISInferer.t ndarray :=
  (y <- lift (getitem X col) ;;
   r <- (fun self =>
           lift (deconvolve y (OASISInferer.cfg_g self) (OASISInferer.cfg_sn self)
                   (OASISInferer.cfg_b self) (OASISInferer.b_nonneg self)
                   (OASISInferer.optimize_g self) (OASISInferer.penalty self)
                   (OASISInferer.kwargs self)) self) ;;
   OASISInferer.set_fit_param col
     {| OASISInferer.b := OASISInferer.sol_b r;
        OASISInferer.g := OASISInferer.sol_g r;
        OASISInferer.lam := OASISInferer.sol_lam r |} ;;;
   out <- (fun self => ret (OASISInferer.output self) self) ;;
   if String.eqb out "denoised" then ret (OASISInferer.sol_c r)
   else if String.eqb out "spikes"
        then ret (np_maximum_scalar (Fin 0%Qc) (OASISInferer.sol_s r))
        else raise NotImplementedError)%py.

(** The solver's contract on lengths: the denoised trace and the spike
    estimate are as long as the trace it was given. *)
Definition solver_keeps_length
    (deconvolve : ndarray -> list (option double) -> option double ->
                  option double -> bool -> Z -> Z -> list (string * double) ->
                  result OASISInferer.solution) : Prop :=
  forall y g sn b b_nonneg optimize_g penalty kwargs r,
    deconvolve y g sn b b_nonneg optimize_g penalty kwargs = Ok r ->
    length (OASISInferer.sol_c r) = length y
    /\ length (OASISInferer.sol_s r) = length y.

(** ** Sample tables, instances and stand-ins for the external primitives *)

Global Instance exn_eq_dec : EqDecision exn.
Proof. solve_decision. Defined.
Global Instance result_eq_dec {A} `{EqDecision A} : EqDecision (result A).
Proof. solve_decision. Defined.
Global Instance DataFrame_eq_dec : EqDecision DataFrame.
Proof. solve_decision. Defined.

Definition dbl (z : Z) : double := Fin (Q2Qc (inject_Z z)).

(** Two columns of three rows. *)
Definition sample_table : DataFrame :=
  {| index_len := 3;
     data := [("a", [dbl 1; dbl 5; dbl 2]); ("b", [dbl 0; dbl 0; dbl 7])] |}.

(** One column of one row. *)
Definition short_table : DataFrame :=
  {| index_len := 1; data := [("a", [dbl 1])] |}.

(** One column named [b], of one row. *)
Definition other_table : DataFrame :=
  {| index_len := 1; data := [("b", [dbl 2])] |}.

(** One column holding -1. *)
Definition negative_table : DataFrame :=
  {| index_len := 1; data := [("a", [dbl (-1)])] |}.

(** Three rows and no column. *)
Definition no_columns : DataFrame := {| index_len := 3; data := [] |}.

(** A smoother that returns its input, and a solver that returns the trace
    as both the denoised trace and the spike estimate. *)
Definition identity_smoother (x : ndarray) (window_length polyorder : Z)
  : ndarray := x.

Definition identity_solver (y : ndarray) (g : list (option double))
    (sn b : option double) (b_nonneg : bool) (optimize_g penalty : Z)
    (kwargs : list (string * double)) : result OASISInferer.solution :=
  Ok {| OASISInferer.sol_c := y; OASISInferer.sol_s := y;
        OASISInferer.sol_b := Fin 0%Qc; OASISInferer.sol_g := [];
        OASISInferer.sol_lam := Fin 0%Qc |}.

(** A stand-in for the logarithm of a positive rational. *)
Definition ln_stub (q : Qc) : Qc := (q - 1)%Qc.


(** Every run of the method that returns has added the columns of [X] to the
    keys of [fit_params], read by [fp]. *)
Definition adds_columns_to_keys {S V} (fp : S -> option (gmap string V))
    (method : py S DataFrame) (X : DataFrame) : Prop :=
  forall self X' self' m0,
    fp self = Some m0 -> method self = (Ok X', self') ->
    exists m, fp self' = Some m /\ dom m = dom m0 ∪ list_to_set (columns X).

(** ** Objects and references

    The same four transforms once more, with arrays and frames as mutable
    objects in a store, so that an update in place ([tmp_data *= scale],
    [X_new[col] = ...]) is an update of the object every reference to it
    sees.  A reference is the position of the object in the store. *)

Inductive object : Type :=
| Array (v : ndarray)
| Frame (n : nat) (cols : list (string * nat)).

(** A value kept in a [dict] of [fit_params]: a reference to an array, a
    number, or a tuple of numbers. *)
Inductive pyval : Type :=
| Ref (a : nat)
| Num (d : double)
| Nums (l : list double).

Record world : Type := {
  objects : list object;
  attr_fit_params : option (gmap string (list (string * pyval)))
}.

(** A new object; its reference is returned. *)
Definition new (o : object) : py world nat :=
  fun w => (Ok (length (objects w)),
            {| objects := objects w ++ [o];
               attr_fit_params := attr_fit_params w |}).

Definition get_array (a : nat) : py world ndarray :=
  fun w => match objects w !! a with
           | Some (Array v) => (Ok v, w)
           | _ => (Err TypeError, w)
           end.

Definition get_frame (a : nat) : py world (nat * list (string * nat)) :=
  fun w => match objects w !! a with
           | Some (Frame n cols) => (Ok (n, cols), w)
           | _ => (Err TypeError, w)
           end.

(** The object at [a] is overwritten where it is. *)
Definition put (a : nat) (o : object) : py world unit :=
  fun w => (Ok tt, {| objects := <[a := o]> (objects w);
                      attr_fit_params := attr_fit_params w |}).

(** [for a in l: body(a)] *)
Definition for_ {S A} (l : list A) (body : A -> py S unit) : py S unit :=
  for_each l (fun a _ => body a) tt.

(** [l] mapped through [f], left to right. *)
Fixpoint map_py {S A B} (f : A -> py S B) (l : list A) : py S (list B) :=
  match l with
  | [] => ret []
  | a :: l' => (b <- f a ;; bs <- map_py f l' ;; ret (b :: bs))%py
  end.

(** [X.copy()]: a new frame over new arrays. *)
Definition ref_copy (X : nat) : py world nat :=
  (f <- get_frame X ;;
   cols <- map_py (fun ca : string * nat =>
                     v <- get_array (snd ca) ;;
                     a <- new (Array v) ;;
                     ret (fst ca, a)) (snd f) ;;
   new (Frame (fst f) cols))%py.

(** [X.columns] *)
Definition ref_columns (X : nat) : py world (list string) :=
  (f <- get_frame X ;; ret (map fst (snd f)))%py.

Fixpoint assoc_ref (col : string) (d : list (string * nat)) : option nat :=
  match d with
  | [] => None
  | (c, a) :: d' => if String.eqb c col then Some a else assoc_ref col d'
  end.

(** [X[col].values]: the array of the column itself, not a copy. *)
Definition ref_values (X : nat) (col : string) : py world nat :=
  (f <- get_frame X ;;
   match assoc_ref col (snd f) with
   | Some a => ret a
   | None => raise (KeyError col)
   end)%py.

(** [a.astype(np.double)]: always a newly allocated array. *)
Definition ref_astype (a : nat) : py world nat :=
  (v <- get_array a ;; new (Array v))%py.

(** [a *= m]: the array is multiplied where it is. *)
Definition ref_imul (a : nat) (m : double) : py world unit :=
  (v <- get_array a ;; put a (Array (np_mul_scalar v m)))%py.

(** A new array computed from the contents of one or of two arrays. *)
Definition ref_apply (f : ndarray -> result ndarray) (a : nat) : py world nat :=
  (v <- get_array a ;; r <- lift (f v) ;; new (Array r))%py.

Definition ref_apply2 (f : ndarray -> ndarray -> result ndarray) (a b : nat)
  : py world nat :=
  (v <- get_array a ;; u <- get_array b ;; r <- lift (f v u) ;; new (Array r))%py.

Fixpoint assign_ref (col : string) (a : nat) (d : list (string * nat))
  : list (string * nat) :=
  match d with
  | [] => [(col, a)]
  | (c, b) :: d' => if String.eqb c col then (c, a) :: d'
                    else (c, b) :: assign_ref col a d'
  end.

(** [X_new[col] = a]: the frame is updated where it is, and its column now
    refers to the array [a]; a frame whose index is empty takes the length
    of a non-empty array, its other columns becoming new arrays of nan. *)
Definition ref_setitem (X_new : nat) (col : string) (a : nat) : py world unit :=
  (f <- get_frame X_new ;;
   v <- get_array a ;;
   if Nat.eqb (fst f) 0 && negb (Nat.eqb (length v) 0)
   then cols <- map_py (fun cb : string * nat =>
                          b <- new (Array (repeat NaN (length v))) ;;
                          ret (fst cb, b)) (snd f) ;;
        put X_new (Frame (length v) (assign_ref col a cols))
   else if Nat.eqb (length v) (fst f)
        then put X_new (Frame (fst f) (assign_ref col a (snd f)))
        else raise ValueError)%py.

(** [self.fit_params[col] = entry] *)
Definition ref_set_fit_param (col : string) (entry : list (string * pyval))
  : py world unit :=
  fun w => match attr_fit_params w with
           | None => (Err (AttributeError "fit_params"), w)
           | Some m => (Ok tt, {| objects := objects w;
                                  attr_fit_params := Some (<[col := entry]> m) |})
           end.

(** [MedianFilterDetrend.transform(self, X)] on references. *)
Definition median_transform_ref (window : Z) (peak_std_threshold : double)
    (X : nat) : py world nat :=
  (X_new <- ref_copy X ;;
   cols <- ref_columns X ;;
   for_ cols
     (fun col =>
        v <- ref_values X col ;;
        tmp_data <- ref_astype v ;;
        mf <- ref_apply (fun a => medfilt a window) tmp_data ;;
        mf <- ref_apply
                (fun a => Ok (np_minimum_scalar a
                                (dmul peak_std_threshold
                                   (MedianFilterDetrend.robust_std a)))) mf ;;
        ref_set_fit_param col [("mf", Ref mf)] ;;;
        d <- ref_apply2 np_sub tmp_data mf ;;
        ref_setitem X_new col d) ;;;
   ret X_new)%py.

(** [SavGolFilterDetrend.transform(self, X)] on references. *)
Definition savgol_transform_ref
    (savgol_filter : ndarray -> Z -> Z -> result ndarray)
    (window order : Z) (X : nat) : py world nat :=
  (X_new <- ref_copy X ;;
   cols <- ref_columns X ;;
   for_ cols
     (fun col =>
        v <- ref_values X col ;;
        tmp_data <- ref_astype v ;;
        sgf <- ref_apply (fun a => savgol_filter a window order) tmp_data ;;
        ref_set_fit_param col [("sgf", Ref sgf)] ;;;
        d <- ref_apply2 np_sub tmp_data sgf ;;
        ref_setitem X_new col d) ;;;
   ret X_new)%py.

(** [EventRescale.transform(self, X)] on references. *)
Definition rescale_transform_ref (ln : Qc -> Qc) (log_transform : bool)
    (scale : double) (X : nat) : py world nat :=
  (X_new <- ref_copy X ;;
   cols <- ref_columns X ;;
   for_ cols
     (fun col =>
        v <- ref_values X col ;;
        tmp_data <- ref_astype v ;;
        ref_imul tmp_data scale ;;;
        tmp_data <- (if log_transform
                     then one_plus <- ref_apply
                                        (fun a => Ok (np_add_scalar (Fin 1%Qc) a))
                                        tmp_data ;;
                          ref_apply (fun a => Ok (EventRescale.np_log ln a)) one_plus
                     else ret tmp_data) ;;
        ref_setitem X_new col tmp_data) ;;;
   ret X_new)%py.

(** [OASISInferer.transform(self, X)] on references.  The solver is handed
    the array [y]; [overwrite] is what it leaves in that array. *)
Definition oasis_transform_ref
    (deconvolve : ndarray -> result OASISInferer.solution)
    (overwrite : ndarray -> ndarray)
    (output : string) (X : nat) : py world nat :=
  (X_new <- ref_copy X ;;
   cols <- ref_columns X ;;
   for_ cols
     (fun col =>
        v <- ref_values X col ;;
        y <- ref_astype v ;;
        trace <- get_array y ;;
        put y (Array (overwrite trace)) ;;;
        r <- lift (deconvolve trace) ;;
        ref_set_fit_param col
          [("b", Num (OASISInferer.sol_b r)); ("g", Nums (OASISInferer.sol_g r));
           ("lam", Num (OASISInferer.sol_lam r))] ;;;
        if String.eqb output "denoised"
        then c <- new (Array (OASISInferer.sol_c r)) ;;
             ref_setitem X_new col c
        else if String.eqb output "spikes"
             then s <- new (Array (np_maximum_scalar (Fin 0%Qc)
                                     (OASISInferer.sol_s r))) ;;
                  ref_setitem X_new col s
             else raise NotImplementedError) ;;;
   ret X_new)%py.

(** The objects that exist in [w] are in [w'] what they are in [w]. *)
Definition untouched (w w' : world) : Prop :=
  (length (objects w) <= length (objects w'))%nat
  /\ forall a, (a < length (objects w))%nat -> objects w' !! a = objects w !! a.

(** A computation that leaves the objects below [n] as they are, writes
    nothing out of the store's range, and whose result satisfies [Q]. *)
Definition writes_above (n : nat) {A} (m : py world A) (Q : A -> Prop) : Prop :=
  forall w, (n <= length (objects w))%nat ->
    (length (objects w) <= length (objects (snd (m w))))%nat
    /\ (forall a, (a < n)%nat -> objects (snd (m w)) !! a = objects w !! a)
    /\ match fst (m w) with Ok x => Q x | Err _ => True end.

(** The table a frame holds: its row count and, for each column in order,
    the contents of the array the column refers to. *)
Fixpoint read_columns (objs : list object) (cols : list (string * nat))
  : option (list (string * ndarray)) :=
  match cols with
  | [] => Some []
  | (c, a) :: cols' =>
      match objs !! a, read_columns objs cols' with
      | Some (Array v), Some d => Some ((c, v) :: d)
      | _, _ => None
      end
  end.

Definition read_frame (w : world) (X : nat) : option DataFrame :=
  match objects w !! X with
  | Some (Frame n cols) =>
      match read_columns (objects w) cols with
      | Some d => Some {| index_len := n; data := d |}
      | None => None
      end
  | _ => None
  end.

(** A store with the array [1, 5, 2] at 0 and, at 1, a frame whose column
    [a] refers to it; [fit] has run. *)
Definition sample_world : world :=
  {| objects := [Array [dbl 1; dbl 5; dbl 2]; Frame 3 [("a", 0%nat)]];
     attr_fit_params := Some ∅ |}.

(** ** Orders and predicates used in the further properties *)

(** [a <= b] in the order of [np.sort]. *)
Definition dle (a b : double) : Prop := dleb a b = true.

(** A finite value that is not below zero. *)
Definition nonneg (a : double) : Prop :=
  match a with Fin q => (0 <= q)%Qc | _ => False end.

(** A value [np.maximum(0, s)] can hold: anything but a negative number. *)
Definition not_negative (a : double) : Prop := dsign a <> Some true.

(** Every entry of every column is finite. *)
Definition finite_table (X : DataFrame) : Prop :=
  Forall (fun cv => Forall is_finite (snd cv)) (data X).

(** ** [robust_std] over an arithmetic, exact or rounding

    The operations [robust_std] applies to numbers, so that the function can
    be run on the exact [double] above and on IEEE binary64, the arithmetic
    of [np.double], where every operation rounds. *)

Record arithmetic : Type := {
  num : Type;
  plus : num -> num -> num;
  minus : num -> num -> num;
  times : num -> num -> num;
  quotient : num -> num -> num;
  absolute : num -> num;
  (** the order of [np.sort], nan last *)
  below : num -> num -> bool;
  nan_test : num -> bool;
  not_a_number : num;
  two : num;
  (** the literal [1.4826] *)
  mad_factor : num
}.

Fixpoint insert_in (A : arithmetic) (a : num A) (l : list (num A))
  : list (num A) :=
  match l with
  | [] => [a]
  | b :: l' => if below A a b then a :: l else b :: insert_in A a l'
  end.

(** [np.sort(a)] *)
Definition sort_in (A : arithmetic) (a : list (num A)) : list (num A) :=
  foldr (insert_in A) [] a.

(** [np.median(a)] *)
Definition median_in (A : arithmetic) (a : list (num A)) : num A :=
  let n := length a in
  let part := sort_in A a in
  if existsb (nan_test A) a then not_a_number A
  else if Nat.eqb n 0 then not_a_number A
  else if Nat.odd n then nth (n / 2)%nat part (not_a_number A)
  else quotient A (plus A (nth (n / 2 - 1)%nat part (not_a_number A))
                          (nth (n / 2)%nat part (not_a_number A)))
                  (two A).

(** [MedianFilterDetrend.robust_std(self, x)] *)
Definition robust_std_in (A : arithmetic) (x : list (num A)) : num A :=
  let MAD := median_in A (map (absolute A)
                            (map (fun v => minus A v (median_in A x)) x)) in
  times A (mad_factor A) MAD.

(** [x + C] for an array [x] and a scalar [C] *)
Definition shift_in (A : arithmetic) (x : list (num A)) (C : num A)
  : list (num A) :=
  map (fun v => plus A v C) x.

(** The exact arithmetic of [double]. *)
Definition exact : arithmetic :=
  {| num := double; plus := dadd; minus := dsub; times := dmul;
     quotient := ddiv; absolute := dabs; below := dleb; nan_test := is_nan;
     not_a_number := NaN; two := Fin (Q2Qc 2);
     mad_factor := Fin (Q2Qc (14826 # 10000)) |}.

(** IEEE binary64, round to nearest even: the arithmetic of [np.double].
    [0x1.7b8bac710cb29p+0] is the double that the literal [1.4826] denotes. *)
Definition binary64 : arithmetic :=
  {| num := float; plus := PrimFloat.add; minus := PrimFloat.sub;
     times := PrimFloat.mul; quotient := PrimFloat.div;
     absolute := PrimFloat.abs;
     below := fun a b => if PrimFloat.is_nan b then true
                         else if PrimFloat.is_nan a then false
                         else PrimFloat.leb a b;
     nan_test := PrimFloat.is_nan; not_a_number := PrimFloat.nan;
     two := 2%float; mad_factor := 0x1.7b8bac710cb29p+0%float |}.

(** Adding [C] is exact on [x]: [x] holds no nan, and on the elements of [x]
    the addition keeps the order, commutes with the midpoint of two elements
    and leaves the difference to the median as it is. *)
Definition shift_is_exact (A : arithmetic) (x : list (num A)) (C : num A) : Prop :=
  Forall (fun a => nan_test A a = false /\ nan_test A (plus A a C) = false) x
  /\ Forall (fun a =>
               Forall (fun b => below A (plus A a C) (plus A b C) = below A a b) x) x
  /\ Forall (fun a =>
               Forall (fun b =>
                         quotient A (plus A (plus A a C) (plus A b C)) (two A)
                         = plus A (quotient A (plus A a b) (two A)) C) x) x
  /\ Forall (fun a =>
               minus A (plus A a C) (plus A (median_in A x) C)
               = minus A a (median_in A x)) x.

(** * Properties *)

(** ** Columns of a frame *)

Lemma assoc_Some_columns col d v :
  assoc col d = Some v -> col ∈ map fst d.
Proof.
  induction d as [|[c w] d IH]; simpl; [discriminate|].
  destruct (String.eqb_spec c col) as [->|Hne]; intros H.
  - apply list_elem_of_here.
  - apply list_elem_of_further, IH, H.
Qed.

Lemma columns_assoc col d :
  col ∈ map fst d -> exists v, assoc col d = Some v.
Proof.
  induction d as [|[c w] d IH]; simpl; intros H.
  - inversion H.
  - destruct (String.eqb_spec c col) as [->|Hne]; [eauto|].
    apply IH. inversion H; subst; [congruence|assumption].
Qed.

Lemma assoc_None_columns col d :
  assoc col d = None -> col ∉ map fst d.
Proof.
  intros H Hin. destruct (columns_assoc _ _ Hin) as [v Hv]. congruence.
Qed.

Lemma assign_columns col v d :
  col ∈ map fst d -> map fst (assign col v d) = map fst d.
Proof.
  induction d as [|[c w] d IH]; simpl; intros H.
  - inversion H.
  - destruct (String.eqb_spec c col) as [->|Hne]; simpl; [reflexivity|].
    f_equal. apply IH. inversion H; subst; [congruence|assumption].
Qed.

Lemma assoc_assign_eq col v d : assoc col (assign col v d) = Some v.
Proof.
  induction d as [|[c w] d IH]; simpl.
  - now rewrite String.eqb_refl.
  - destruct (String.eqb_spec c col) as [->|Hne]; simpl.
    + now rewrite String.eqb_refl.
    + destruct (String.eqb_spec c col); [congruence|exact IH].
Qed.

Lemma assoc_assign_ne col c v d :
  c <> col -> assoc c (assign col v d) = assoc c d.
Proof.
  intros Hne. induction d as [|[c' w] d IH]; simpl.
  - destruct (String.eqb_spec col c); [congruence|reflexivity].
  - destruct (String.eqb_spec c' col) as [->|Hne']; simpl.
    + destruct (String.eqb_spec col c); [congruence|reflexivity].
    + destruct (String.eqb_spec c' c); [reflexivity|exact IH].
Qed.

Lemma assign_lengths n col v d :
  length v = n ->
  Forall (fun cv : string * ndarray => length (snd cv) = n) d ->
  Forall (fun cv : string * ndarray => length (snd cv) = n) (assign col v d).
Proof.
  intros Hv. induction 1 as [|[c w] d Hc Hd IH]; simpl.
  - constructor; [exact Hv|constructor].
  - destruct (String.eqb c col); constructor; auto.
Qed.

Lemma shape_columns X X' : shape X' = shape X -> columns X' = columns X.
Proof.
  unfold shape, columns. intros [= _ H].
  apply (f_equal (map fst)) in H. rewrite !map_map in H. exact H.
Qed.

Lemma assign_shape col v d w :
  assoc col d = Some w -> length v = length w ->
  map (fun cv : string * ndarray => (fst cv, length (snd cv))) (assign col v d)
  = map (fun cv : string * ndarray => (fst cv, length (snd cv))) d.
Proof.
  induction d as [|[c u] d IH]; simpl; [discriminate|].
  destruct (String.eqb_spec c col) as [->|Hne]; simpl.
  - intros [= ->] ->. reflexivity.
  - intros H1 H2. f_equal. now apply IH.
Qed.

Lemma well_formed_assoc_length X col w :
  well_formed X -> assoc col (data X) = Some w -> length w = index_len X.
Proof.
  intros [_ Hlen]. induction (data X) as [|[c u] d IH]; simpl; [discriminate|].
  inversion Hlen; subst.
  destruct (String.eqb c col); [intros [= <-]; assumption|auto].
Qed.

(** Assigning an array as long as the index to a column that exists. *)
Lemma setitem_same_length X col v w :
  well_formed X -> assoc col (data X) = Some w -> length v = index_len X ->
  exists X', setitem X col v = Ok X' /\ shape X' = shape X /\ well_formed X'
             /\ assoc col (data X') = Some v
             /\ (forall c, c <> col -> assoc c (data X') = assoc c (data X)).
Proof.
  intros Hwf Hw Hv. unfold setitem.
  assert (Hq : Nat.eqb (index_len X) 0 && negb (Nat.eqb (length v) 0) = false).
  { rewrite Hv. now destruct (index_len X). }
  rewrite Hq, Hv, Nat.eqb_refl. eexists. split; [reflexivity|].
  pose proof (well_formed_assoc_length _ _ _ Hwf Hw) as Hlw.
  destruct Hwf as [Hnd Hlen]. unfold shape, well_formed, columns in *. simpl.
  repeat split.
  - f_equal. apply assign_shape with (w := w); congruence.
  - rewrite assign_columns; [assumption|]. eapply assoc_Some_columns; eauto.
  - apply assign_lengths; assumption.
  - apply assoc_assign_eq.
  - intros c Hc. now apply assoc_assign_ne.
Qed.

(** A successful assignment leaves the shape alone unless it gave an empty
    index the length of a non-empty array. *)
Lemma setitem_Ok_length X col v X' :
  setitem X col v = Ok X' ->
  length v = index_len X \/ (index_len X = 0%nat /\ length v <> 0%nat).
Proof.
  unfold setitem.
  destruct (Nat.eqb_spec (index_len X) 0) as [H0|H0];
    destruct (Nat.eqb_spec (length v) 0) as [Hv|Hv]; simpl;
    destruct (Nat.eqb_spec (length v) (index_len X)); intros H;
    try discriminate; auto.
Qed.

(** ** The loop over the columns

    Every [transform] runs [for col in X.columns], computes an array for the
    column and assigns it to the column of the copy.  The two lemmas of this
    section are about any loop of that form: [compute] is what happens before
    the assignment, [J] an invariant of the instance indexed by the columns
    done so far, and [P] what is known of the array computed for a column. *)

Lemma for_each_ext {S A B} (l : list A) (f g : A -> B -> py S B) acc s :
  (forall a b s, f a b s = g a b s) ->
  for_each l f acc s = for_each l g acc s.
Proof.
  intros Hfg. revert acc s.
  induction l as [|a l IH]; intros acc s; simpl; [reflexivity|].
  unfold bind. rewrite Hfg. destruct (g a acc s) as [[b|e] s']; auto.
Qed.

Section ColumnLoop.
Context {S : Type}.
Variable X : DataFrame.
Variable compute : string -> py S ndarray.
Variable J : list string -> S -> Prop.
Variable P : string -> ndarray -> Prop.

Hypothesis X_wf : well_formed X.

Lemma column_loop_from pre rest X_new s X' s' :
  (forall pre col s d s',
      J pre s -> col ∈ columns X -> col ∉ pre ->
      compute col s = (Ok d, s') ->
      J (pre ++ [col]) s' /\ P col d
      /\ (index_len X = 0%nat -> length d = 0%nat)) ->
  columns X = pre ++ rest ->
  J pre s -> shape X_new = shape X -> well_formed X_new ->
  (forall col, col ∈ pre -> exists d, assoc col (data X_new) = Some d /\ P col d) ->
  for_each rest (column_body compute) X_new s = (Ok X', s') ->
  J (columns X) s' /\ shape X' = shape X /\ well_formed X'
  /\ (forall col, col ∈ columns X ->
                  exists d, assoc col (data X') = Some d /\ P col d).
Proof.
  intros Hstep. revert pre X_new s.
  induction rest as [|col rest IH]; intros pre X_new s Hcols HJ Hsh Hwf Hdone.
  - simpl. rewrite app_nil_r in Hcols. intros [= <- <-].
    rewrite Hcols. auto.
  - simpl. unfold bind, column_body at 1.
    destruct (compute col s) as [[d|e] s1] eqn:Hc; [|discriminate].
    destruct (setitem X_new col d) as [X1|e] eqn:Hset; [|discriminate].
    assert (Hin : col ∈ columns X).
    { rewrite Hcols. apply elem_of_app. right. apply list_elem_of_here. }
    assert (Hnotin : col ∉ pre).
    { destruct X_wf as [Hnd _]. rewrite Hcols in Hnd.
      apply NoDup_app in Hnd as (_ & Hnd & _). intros Hp.
      apply (Hnd _ Hp). apply list_elem_of_here. }
    destruct (Hstep _ _ _ _ _ HJ Hin Hnotin Hc) as (HJ1 & HP & Hzero).
    assert (Hlen : length d = index_len X_new).
    { destruct (setitem_Ok_length _ _ _ _ Hset) as [H|[H0 Hd]]; [exact H|].
      exfalso. apply Hd, Hzero. injection Hsh as <- _. exact H0. }
    assert (Hcol : exists w, assoc col (data X_new) = Some w).
    { apply columns_assoc. fold (columns X_new).
      rewrite (shape_columns _ _ Hsh). exact Hin. }
    destruct Hcol as [w Hw].
    destruct (setitem_same_length _ _ _ _ Hwf Hw Hlen)
      as (X1' & Hset' & Hsh1 & Hwf1 & Hget & Hother).
    rewrite Hset in Hset'. injection Hset' as <-.
    apply (IH (pre ++ [col])); auto.
    + now rewrite <- app_assoc.
    + congruence.
    + intros c Hc'. apply elem_of_app in Hc' as [Hc'|Hc'].
      * destruct (Hdone _ Hc') as (d' & Hd' & HP').
        exists d'. split; [|exact HP'].
        rewrite Hother; [exact Hd'|]. intros ->. contradiction.
      * apply list_elem_of_singleton in Hc' as ->. eauto.
Qed.

(** What a returned table looks like. *)
Lemma column_loop_spec s X' s' :
  (forall pre col s d s',
      J pre s -> col ∈ columns X -> col ∉ pre ->
      compute col s = (Ok d, s') ->
      J (pre ++ [col]) s' /\ P col d
      /\ (index_len X = 0%nat -> length d = 0%nat)) ->
  J [] s ->
  for_each (columns X) (column_body compute) (copy X) s = (Ok X', s') ->
  J (columns X) s' /\ shape X' = shape X /\ well_formed X'
  /\ (forall col, col ∈ columns X ->
                  exists d, assoc col (data X') = Some d /\ P col d).
Proof.
  intros Hstep HJ. apply (column_loop_from [] (columns X)); auto.
  intros col Hc. inversion Hc.
Qed.

Lemma column_loop_returns_from pre rest X_new s :
  (forall pre col s,
      J pre s -> col ∈ columns X ->
      exists d s', compute col s = (Ok d, s')
                   /\ length d = index_len X /\ J (pre ++ [col]) s') ->
  (forall col, col ∈ rest -> col ∈ columns X) ->
  J pre s -> shape X_new = shape X -> well_formed X_new ->
  exists X' s', for_each rest (column_body compute) X_new s = (Ok X', s').
Proof.
  intros Hstep. revert pre X_new s.
  induction rest as [|col rest IH]; intros pre X_new s Hsub HJ Hsh Hwf.
  - simpl. unfold ret. eauto.
  - assert (Hin : col ∈ columns X) by (apply Hsub, list_elem_of_here).
    destruct (Hstep _ _ _ HJ Hin) as (d & s1 & Hc & Hlen & HJ1).
    assert (Hcol : exists w, assoc col (data X_new) = Some w).
    { apply columns_assoc. fold (columns X_new).
      rewrite (shape_columns _ _ Hsh). exact Hin. }
    destruct Hcol as [w Hw].
    assert (Hlen' : length d = index_len X_new).
    { injection Hsh as -> _. exact Hlen. }
    destruct (setitem_same_length _ _ _ _ Hwf Hw Hlen')
      as (X1 & Hset & Hsh1 & Hwf1 & _).
    simpl. unfold bind, column_body at 1. rewrite Hc, Hset.
    apply (IH (pre ++ [col])); auto.
    + intros c Hc'. apply Hsub, list_elem_of_further, Hc'.
    + congruence.
Qed.

(** When the loop returns a table. *)
Lemma column_loop_returns s :
  (forall pre col s,
      J pre s -> col ∈ columns X ->
      exists d s', compute col s = (Ok d, s')
                   /\ length d = index_len X /\ J (pre ++ [col]) s') ->
  J [] s ->
  exists X' s', for_each (columns X) (column_body compute) (copy X) s = (Ok X', s').
Proof.
  intros Hstep HJ. apply (column_loop_returns_from [] (columns X)); auto.
Qed.

(** The first column that cannot be computed ends the loop with its error. *)
Lemma column_loop_raises col rest X_new s e s' :
  compute col s = (Err e, s') ->
  for_each (col :: rest) (column_body compute) X_new s = (Err e, s').
Proof.
  intros Hc. simpl. unfold bind, column_body at 1. now rewrite Hc.
Qed.
End ColumnLoop.

(** ** MedianFilterDetrend *)

Lemma medfilt_length x k b : medfilt x k = Ok b -> length b = length x.
Proof.
  unfold medfilt, order_filter.
  destruct (negb (k mod 2 =? 1)); [discriminate|].
  destruct (k <? 0); [discriminate|].
  intros [= <-]. now rewrite length_map, length_seq.
Qed.

Lemma medfilt_odd x k :
  k mod 2 = 1 -> 0 < k -> exists b, medfilt x k = Ok b.
Proof.
  intros Hodd Hpos. unfold medfilt.
  rewrite Hodd. simpl.
  destruct (Z.ltb_spec k 0); [lia|]. eauto.
Qed.

Lemma medfilt_not_odd x k : k mod 2 <> 1 -> medfilt x k = Err ValueError.
Proof.
  intros Hk. unfold medfilt.
  destruct (Z.eqb_spec (k mod 2) 1); [contradiction|reflexivity].
Qed.

Lemma spec_clamped_baseline_length w thr x b :
  spec_clamped_baseline w thr x = Ok b -> length b = length x.
Proof.
  unfold spec_clamped_baseline.
  destruct (medfilt x w) as [b0|e] eqn:Hm; [|discriminate].
  intros [= <-]. rewrite length_map. eapply medfilt_length; eauto.
Qed.

Lemma np_sub_same_length a b :
  length a = length b -> np_sub a b = Ok (zip_with dsub a b).
Proof. intros H. unfold np_sub. now rewrite H, Nat.eqb_refl. Qed.

Lemma length_zip_with_same {A B C} (f : A -> B -> C) (a : list A) (b : list B) :
  length a = length b -> length (zip_with f a b) = length a.
Proof. intros H. rewrite length_zip_with. lia. Qed.

Lemma median_transform_loop X self :
  MedianFilterDetrend.transform X self
  = for_each (columns X) (column_body (median_compute X)) (copy X) self.
Proof.
  unfold MedianFilterDetrend.transform. apply for_each_ext.
  intros col X_new s.
  unfold column_body, median_compute, bind, lift, ret,
    MedianFilterDetrend.set_fit_param.
  destruct (getitem X col); [|reflexivity].
  destruct (medfilt _ _); [|reflexivity].
  destruct (MedianFilterDetrend.fit_params s); [|reflexivity].
  simpl. destruct (np_sub _ _); reflexivity.
Qed.

(** One column of [MedianFilterDetrend.transform], read off the code. *)
Lemma median_compute_Ok X col s d s' :
  median_compute X col s = (Ok d, s') ->
  exists x b m,
    assoc col (data X) = Some x
    /\ spec_clamped_baseline (MedianFilterDetrend.window s)
         (MedianFilterDetrend.peak_std_threshold s) x = Ok b
    /\ MedianFilterDetrend.fit_params s = Some m
    /\ d = zip_with dsub x b
    /\ s' = {| MedianFilterDetrend.window := MedianFilterDetrend.window s;
               MedianFilterDetrend.peak_std_threshold :=
                 MedianFilterDetrend.peak_std_threshold s;
               MedianFilterDetrend.fit_params :=
                 Some (<[col := {| MedianFilterDetrend.mf := b |}]> m) |}.
Proof.
  unfold median_compute, bind, lift, ret, MedianFilterDetrend.set_fit_param,
    getitem.
  destruct (assoc col (data X)) as [x|] eqn:Hx; [|discriminate].
  destruct (medfilt x (MedianFilterDetrend.window s)) as [b0|e] eqn:Hm;
    [|discriminate].
  destruct (MedianFilterDetrend.fit_params s) as [m|] eqn:Hfp; [|discriminate].
  cbn [MedianFilterDetrend.window MedianFilterDetrend.peak_std_threshold].
  set (b := np_minimum_scalar b0 _).
  assert (Hlen : length x = length b).
  { unfold b, np_minimum_scalar. rewrite length_map.
    symmetry. eapply medfilt_length; eauto. }
  rewrite (np_sub_same_length _ _ Hlen). intros [= <- <-].
  exists x, b, m. repeat split; try reflexivity.
  unfold spec_clamped_baseline. rewrite Hm.
  unfold b, np_minimum_scalar, MedianFilterDetrend.robust_std, np_abs,
    np_sub_scalar. now rewrite map_map.
Qed.

Lemma median_compute_fitted X col s x b m :
  assoc col (data X) = Some x ->
  spec_clamped_baseline (MedianFilterDetrend.window s)
    (MedianFilterDetrend.peak_std_threshold s) x = Ok b ->
  MedianFilterDetrend.fit_params s = Some m ->
  median_compute X col s
  = (Ok (zip_with dsub x b),
     {| MedianFilterDetrend.window := MedianFilterDetrend.window s;
        MedianFilterDetrend.peak_std_threshold :=
          MedianFilterDetrend.peak_std_threshold s;
        MedianFilterDetrend.fit_params :=
          Some (<[col := {| MedianFilterDetrend.mf := b |}]> m) |}).
Proof.
  intros Hx Hb Hfp.
  pose proof (spec_clamped_baseline_length _ _ _ _ Hb) as Hlen.
  revert Hb.
  unfold median_compute, bind, lift, ret, MedianFilterDetrend.set_fit_param,
    getitem, spec_clamped_baseline.
  rewrite Hx.
  destruct (medfilt x (MedianFilterDetrend.window s)) as [b0|e] eqn:Hm;
    [|discriminate].
  rewrite Hfp.
  cbn [MedianFilterDetrend.window MedianFilterDetrend.peak_std_threshold].
  intros [= <-].
  unfold np_minimum_scalar, MedianFilterDetrend.robust_std, np_abs,
    np_sub_scalar. rewrite map_map.
  rewrite np_sub_same_length; [reflexivity|].
  rewrite length_map. symmetry. eapply medfilt_length; eauto.
Qed.

Lemma median_recorded_start X self : median_recorded X self [] self.
Proof.
  unfold median_recorded. do 2 (split; [reflexivity|]).
  destruct (MedianFilterDetrend.fit_params self) as [m0|]; [|auto].
  exists m0. repeat split; auto.
  - set_solver.
  - intros col Hc. inversion Hc.
Qed.

Lemma median_step X self0 pre col s d s' :
  well_formed X ->
  median_recorded X self0 pre s -> col ∈ columns X -> col ∉ pre ->
  median_compute X col s = (Ok d, s') ->
  median_recorded X self0 (pre ++ [col]) s' /\ median_output X self0 col d
  /\ (index_len X = 0%nat -> length d = 0%nat).
Proof.
  intros Hwf (Hw & Ht & Hrec) Hin Hnotin Hc.
  apply median_compute_Ok in Hc as (x & b & m & Hx & Hb & Hfp & -> & ->).
  rewrite Hw, Ht in Hb. split; [|split].
  - unfold median_recorded.
    cbn [MedianFilterDetrend.window MedianFilterDetrend.peak_std_threshold
         MedianFilterDetrend.fit_params].
    do 2 (split; [assumption|]).
    destruct (MedianFilterDetrend.fit_params self0) as [m0|].
    + destruct Hrec as (m' & Hm' & Hdom & Hdone & Hrest).
      assert (m' = m) as -> by congruence.
      exists (<[col := {| MedianFilterDetrend.mf := b |}]> m).
      split; [reflexivity|]. split; [|split].
      * rewrite dom_insert_L, Hdom, list_to_set_app_L. set_solver.
      * intros c Hc. apply elem_of_app in Hc as [Hc|Hc].
        -- destruct (Hdone _ Hc) as (x' & b' & Hx' & Hb' & Hm).
           exists x', b'. repeat split; auto.
           rewrite lookup_insert_ne; [exact Hm|]. intros ->. contradiction.
        -- apply list_elem_of_singleton in Hc as ->.
           exists x, b. repeat split; auto. apply lookup_insert_eq.
      * intros c Hc. apply not_elem_of_app in Hc as [Hc1 Hc2].
        rewrite lookup_insert_ne; [auto|].
        intros ->. apply Hc2, list_elem_of_here.
    + destruct Hrec as [_ Hnone]. congruence.
  - exists x, b. auto.
  - intros H0. rewrite length_zip_with_same.
    + rewrite <- H0. eapply well_formed_assoc_length; eauto.
    + symmetry. eapply spec_clamped_baseline_length; eauto.
Qed.

(** A table returned by [MedianFilterDetrend.transform]: the shape is the
    input's, every column is the input column minus its clamped baseline, and
    the instance has recorded the clamped baselines. *)
Lemma median_transform_spec X self X' self' :
  well_formed X ->
  MedianFilterDetrend.transform X self = (Ok X', self') ->
  median_recorded X self (columns X) self'
  /\ shape X' = shape X /\ well_formed X'
  /\ (forall col, col ∈ columns X ->
        exists d, assoc col (data X') = Some d /\ median_output X self col d).
Proof.
  intros Hwf. rewrite median_transform_loop.
  apply (column_loop_spec X (median_compute X) (median_recorded X self)
           (median_output X self) Hwf).
  - intros pre col s d s1. now apply median_step.
  - apply median_recorded_start.
Qed.

(** [MedianFilterDetrend.transform] returns a table once [fit] has run and
    the window is odd and positive. *)
Lemma median_transform_returns X self m :
  well_formed X ->
  MedianFilterDetrend.fit_params self = Some m ->
  MedianFilterDetrend.window self mod 2 = 1 ->
  0 < MedianFilterDetrend.window self ->
  exists X' self', MedianFilterDetrend.transform X self = (Ok X', self').
Proof.
  intros Hwf Hfp Hodd Hpos. rewrite median_transform_loop.
  apply (column_loop_returns X (median_compute X)
           (fun _ s => MedianFilterDetrend.window s = MedianFilterDetrend.window self
                       /\ is_Some (MedianFilterDetrend.fit_params s)) Hwf).
  - intros pre col s [Hw [m' Hm']] Hin.
    apply columns_assoc in Hin as [x Hx].
    destruct (medfilt_odd x (MedianFilterDetrend.window s)) as [b0 Hb0];
      [congruence|lia|].
    assert (Hb : exists b, spec_clamped_baseline (MedianFilterDetrend.window s)
                   (MedianFilterDetrend.peak_std_threshold s) x = Ok b).
    { unfold spec_clamped_baseline. rewrite Hb0. eauto. }
    destruct Hb as [b Hb].
    pose proof (median_compute_fitted _ _ _ _ _ _ Hx Hb Hm') as Hc.
    do 2 eexists. split; [exact Hc|]. split.
    + rewrite length_zip_with_same.
      * eapply well_formed_assoc_length; eauto.
      * symmetry. eapply spec_clamped_baseline_length; eauto.
    + cbn. split; [exact Hw|eauto].
  - split; [reflexivity|]. rewrite Hfp. eauto.
Qed.

(** ** EventRescale *)

Lemma xorb_sym s t : xorb s t = xorb t s.
Proof. now destruct s, t. Qed.

Lemma dmul_comm a b : dmul a b = dmul b a.
Proof.
  destruct a as [p| | |], b as [q| | |]; simpl; try reflexivity;
    try (f_equal; apply Qcmult_comm);
    repeat match goal with
           | |- context [if ?c then _ else _] => destruct c; simpl
           end; reflexivity.
Qed.

Lemma rescale_transform_loop ln X self :
  EventRescale.transform ln X self
  = for_each (columns X) (column_body (rescale_compute ln X)) (copy X) self.
Proof.
  unfold EventRescale.transform. apply for_each_ext.
  intros col X_new s.
  unfold column_body, rescale_compute, bind, lift, ret.
  destruct (getitem X col); reflexivity.
Qed.

(** One column of [EventRescale.transform], read off the code: the instance
    is not touched. *)
Lemma rescale_compute_eq ln X col s x :
  assoc col (data X) = Some x ->
  rescale_compute ln X col s
  = (Ok (spec_rescale ln (EventRescale.log_transform s) (EventRescale.scale s) x), s).
Proof.
  intros Hx. unfold rescale_compute, bind, lift, ret, getitem, spec_rescale.
  rewrite Hx. f_equal. f_equal.
  unfold EventRescale.np_log, np_add_scalar, np_mul_scalar.
  destruct (EventRescale.log_transform s).
  - rewrite !map_map. apply map_ext. intros v. now rewrite dmul_comm.
  - apply map_ext. intros v. apply dmul_comm.
Qed.

Lemma spec_rescale_length ln l sc x :
  length (spec_rescale ln l sc x) = length x.
Proof. unfold spec_rescale. destruct l; now rewrite length_map. Qed.

(** A table returned by [EventRescale.transform]. *)
Lemma rescale_transform_spec ln X self X' self' :
  well_formed X ->
  EventRescale.transform ln X self = (Ok X', self') ->
  self' = self /\ shape X' = shape X /\ well_formed X'
  /\ (forall col x, assoc col (data X) = Some x ->
        assoc col (data X')
        = Some (spec_rescale ln (EventRescale.log_transform self)
                  (EventRescale.scale self) x)).
Proof.
  intros Hwf. rewrite rescale_transform_loop. intros Hrun.
  pose proof (column_loop_spec X (rescale_compute ln X)
                (fun _ s => s = self)
                (fun col d => forall x, assoc col (data X) = Some x ->
                   d = spec_rescale ln (EventRescale.log_transform self)
                         (EventRescale.scale self) x)
                Hwf self X' self') as H.
  destruct H as (Hs & Hsh & Hwf' & Hcols); auto.
  - intros pre col s d s1 -> Hin _ Hc.
    apply columns_assoc in Hin as [x Hx].
    rewrite (rescale_compute_eq _ _ _ _ _ Hx) in Hc. injection Hc as <- <-.
    split; [reflexivity|]. split.
    + intros x' Hx'. congruence.
    + intros H0. rewrite spec_rescale_length, <- H0.
      eapply well_formed_assoc_length; eauto.
  - do 3 (split; [assumption|]).
    intros col x Hx.
    destruct (Hcols col) as (d & Hd & HP).
    { eapply assoc_Some_columns; eauto. }
    rewrite Hd. f_equal. auto.
Qed.

(** [EventRescale.transform] returns a table for every configuration, and
    leaves the instance as it was. *)
Lemma rescale_transform_returns ln X self :
  well_formed X ->
  exists X', EventRescale.transform ln X self = (Ok X', self).
Proof.
  intros Hwf.
  destruct (column_loop_returns X (rescale_compute ln X)
              (fun _ s => s = self) Hwf self) as (X' & s' & Hrun).
  - intros pre col s -> Hin.
    apply columns_assoc in Hin as [x Hx].
    do 2 eexists. split; [apply rescale_compute_eq, Hx|]. split; [|reflexivity].
    rewrite spec_rescale_length. eapply well_formed_assoc_length; eauto.
  - reflexivity.
  - rewrite <- rescale_transform_loop in Hrun.
    destruct (rescale_transform_spec _ _ _ _ _ Hwf Hrun) as [-> _].
    eauto.
Qed.

(** ** Keys of [fit_params] *)

Lemma keys_recorded_start {S V} (fp : S -> option (gmap string V)) self :
  keys_recorded fp self [] self.
Proof.
  unfold keys_recorded. destruct (fp self) as [m0|]; [|auto].
  exists m0. split; [reflexivity|]. set_solver.
Qed.

Lemma keys_recorded_insert {S V} (fp : S -> option (gmap string V))
    self0 pre s s' m col v :
  keys_recorded fp self0 pre s ->
  fp s = Some m -> fp s' = Some (<[col := v]> m) ->
  keys_recorded fp self0 (pre ++ [col]) s'.
Proof.
  unfold keys_recorded. intros Hrec Hs Hs'.
  destruct (fp self0) as [m0|].
  - destruct Hrec as (m' & Hm' & Hdom).
    assert (m' = m) as -> by congruence.
    eexists. split; [exact Hs'|].
    rewrite dom_insert_L, Hdom, list_to_set_app_L. set_solver.
  - destruct Hrec as [_ Hnone]. congruence.
Qed.

(** ** SavGolFilterDetrend *)


Lemma savgol_transform_loop sf X self :
  SavGolFilterDetrend.transform sf X self
  = for_each (columns X) (column_body (savgol_compute sf X)) (copy X) self.
Proof.
  unfold SavGolFilterDetrend.transform. apply for_each_ext.
  intros col X_new s.
  unfold column_body, savgol_compute, bind, lift, ret,
    SavGolFilterDetrend.set_fit_param.
  destruct (getitem X col); [|reflexivity].
  destruct (sf _ _ _); [|reflexivity].
  destruct (SavGolFilterDetrend.fit_params s); [|reflexivity].
  destruct (np_sub _ _); reflexivity.
Qed.

(** One column of [SavGolFilterDetrend.transform], read off the code. *)
Lemma savgol_compute_Ok sf X col s d s' :
  savgol_compute sf X col s = (Ok d, s') ->
  exists x sgf m,
    assoc col (data X) = Some x
    /\ sf x (SavGolFilterDetrend.window s) (SavGolFilterDetrend.order s) = Ok sgf
    /\ SavGolFilterDetrend.fit_params s = Some m
    /\ np_sub x sgf = Ok d
    /\ s' = {| SavGolFilterDetrend.window := SavGolFilterDetrend.window s;
               SavGolFilterDetrend.order := SavGolFilterDetrend.order s;
               SavGolFilterDetrend.fit_params :=
                 Some (<[col := {| SavGolFilterDetrend.sgf := sgf |}]> m) |}.
Proof.
  unfold savgol_compute, bind, lift, ret, SavGolFilterDetrend.set_fit_param,
    getitem.
  destruct (assoc col (data X)) as [x|] eqn:Hx; [|discriminate].
  destruct (sf x _ _) as [sgf|e] eqn:Hsf; [|discriminate].
  destruct (SavGolFilterDetrend.fit_params s) as [m|] eqn:Hfp; [|discriminate].
  destruct (np_sub x sgf) as [d'|e] eqn:Hsub; [|discriminate].
  intros [= <- <-]. exists x, sgf, m. auto.
Qed.


(** With at least one column, an error of the filter on the first column is
    the outcome of [SavGolFilterDetrend.transform]. *)
Lemma savgol_transform_raises sf X self e :
  data X <> [] ->
  (forall x, sf x (SavGolFilterDetrend.window self)
               (SavGolFilterDetrend.order self) = Err e) ->
  SavGolFilterDetrend.transform sf X self = (Err e, self).
Proof.
  intros Hne Hsf. rewrite savgol_transform_loop.
  unfold columns. destruct (data X) as [|[c x] d] eqn:Hd; [contradiction|].
  simpl. apply column_loop_raises.
  unfold savgol_compute, bind, lift, getitem. rewrite Hd. simpl.
  rewrite String.eqb_refl. now rewrite Hsf.
Qed.

Lemma medfilt_refuses x k :
  ~ (k mod 2 = 1 /\ 0 < k) -> medfilt x k = Err ValueError.
Proof.
  intros Hk. unfold medfilt.
  destruct (Z.eqb_spec (k mod 2) 1) as [Hodd|Hodd]; [|reflexivity]. simpl.
  destruct (Z.ltb_spec k 0); [reflexivity|].
  assert (k = 0) as -> by lia. discriminate.
Qed.

(** With at least one column, a window that is not odd and positive makes
    [MedianFilterDetrend.transform] raise on the first column. *)
Lemma median_transform_raises X self :
  data X <> [] ->
  ~ (MedianFilterDetrend.window self mod 2 = 1
     /\ 0 < MedianFilterDetrend.window self) ->
  MedianFilterDetrend.transform X self = (Err ValueError, self).
Proof.
  intros Hne Hw. rewrite median_transform_loop.
  unfold columns. destruct (data X) as [|[c x] d] eqn:Hd; [contradiction|].
  simpl. apply column_loop_raises.
  unfold median_compute, bind, lift, getitem. rewrite Hd. simpl.
  rewrite String.eqb_refl. now rewrite medfilt_refuses.
Qed.

(** ** OASISInferer *)

Lemma oasis_transform_loop dec X self :
  OASISInferer.transform dec X self
  = for_each (columns X) (column_body (oasis_compute dec X)) (copy X) self.
Proof.
  unfold OASISInferer.transform. apply for_each_ext.
  intros col X_new s.
  unfold column_body, oasis_compute, bind, lift, ret, raise,
    OASISInferer.set_fit_param.
  destruct (getitem X col); [|reflexivity].
  destruct (dec _ _ _ _ _ _ _ _); [|reflexivity].
  destruct (OASISInferer.fit_params s); [|reflexivity].
  cbn [OASISInferer.output OASISInferer.with_fit_params].
  destruct (String.eqb _ "denoised"); [reflexivity|].
  destruct (String.eqb _ "spikes"); reflexivity.
Qed.

(** The array [OASISInferer.transform] assigns for a solution [r]. *)
Lemma oasis_compute_Ok dec X col s d s' :
  oasis_compute dec X col s = (Ok d, s') ->
  exists y r m,
    assoc col (data X) = Some y
    /\ dec y (OASISInferer.cfg_g s) (OASISInferer.cfg_sn s)
         (OASISInferer.cfg_b s) (OASISInferer.b_nonneg s)
         (OASISInferer.optimize_g s) (OASISInferer.penalty s)
         (OASISInferer.kwargs s) = Ok r
    /\ OASISInferer.fit_params s = Some m
    /\ ((OASISInferer.output s = "denoised" /\ d = OASISInferer.sol_c r)
        \/ (OASISInferer.output s = "spikes"
            /\ d = np_maximum_scalar (Fin 0%Qc) (OASISInferer.sol_s r)))
    /\ s' = OASISInferer.with_fit_params s
              (Some (<[col := {| OASISInferer.b := OASISInferer.sol_b r;
                                 OASISInferer.g := OASISInferer.sol_g r;
                                 OASISInferer.lam := OASISInferer.sol_lam r |}]> m)).
Proof.
  unfold oasis_compute, bind, lift, ret, raise, OASISInferer.set_fit_param,
    getitem.
  destruct (assoc col (data X)) as [y|] eqn:Hy; [|discriminate].
  destruct (dec y _ _ _ _ _ _ _) as [r|e] eqn:Hr; [|discriminate].
  destruct (OASISInferer.fit_params s) as [m|] eqn:Hfp; [|discriminate].
  cbn [OASISInferer.output OASISInferer.with_fit_params].
  destruct (String.eqb_spec (OASISInferer.output s) "denoised") as [Hd|Hd].
  - intros [= <- <-]. exists y, r, m. auto 10.
  - destruct (String.eqb_spec (OASISInferer.output s) "spikes") as [Hs|Hs];
      [|discriminate].
    intros [= <- <-]. exists y, r, m. auto 10.
Qed.

(** A table returned by [OASISInferer.transform] for a solver that keeps
    lengths: the shape is the input's and [fit_params] has gained the columns
    as keys. *)
Lemma oasis_transform_spec dec X self X' self' :
  solver_keeps_length dec ->
  well_formed X ->
  OASISInferer.transform dec X self = (Ok X', self') ->
  (OASISInferer.with_fit_params self' None = OASISInferer.with_fit_params self None
   /\ keys_recorded OASISInferer.fit_params self (columns X) self')
  /\ shape X' = shape X /\ well_formed X'
  /\ (forall col, col ∈ columns X ->
        exists d, assoc col (data X') = Some d
          /\ exists y r,
               assoc col (data X) = Some y
               /\ dec y (OASISInferer.cfg_g self) (OASISInferer.cfg_sn self)
                    (OASISInferer.cfg_b self) (OASISInferer.b_nonneg self)
                    (OASISInferer.optimize_g self) (OASISInferer.penalty self)
                    (OASISInferer.kwargs self) = Ok r
               /\ ((OASISInferer.output self = "denoised"
                    /\ d = OASISInferer.sol_c r)
                   \/ (OASISInferer.output self = "spikes"
                       /\ d = np_maximum_scalar (Fin 0%Qc)
                                (OASISInferer.sol_s r)))).
Proof.
  intros Hdec Hwf. rewrite oasis_transform_loop.
  apply (column_loop_spec X (oasis_compute dec X)
           (fun pre s =>
              OASISInferer.with_fit_params s None
              = OASISInferer.with_fit_params self None
              /\ keys_recorded OASISInferer.fit_params self pre s)
           (fun col d =>
              exists y r,
                assoc col (data X) = Some y
                /\ dec y (OASISInferer.cfg_g self) (OASISInferer.cfg_sn self)
                     (OASISInferer.cfg_b self) (OASISInferer.b_nonneg self)
                     (OASISInferer.optimize_g self) (OASISInferer.penalty self)
                     (OASISInferer.kwargs self) = Ok r
                /\ ((OASISInferer.output self = "denoised"
                     /\ d = OASISInferer.sol_c r)
                    \/ (OASISInferer.output self = "spikes"
                        /\ d = np_maximum_scalar (Fin 0%Qc)
                                 (OASISInferer.sol_s r)))) Hwf).
  - intros pre col s d s1 (Hcfg & Hrec) Hin Hnotin Hc.
    apply oasis_compute_Ok in Hc as (y & r & m & Hy & Hr & Hfp & Hout & ->).
    injection Hcfg as Ho Hg Hsn Hb Hbn Hog Hp Hk.
    rewrite Ho in Hout. rewrite Hg, Hsn, Hb, Hbn, Hog, Hp, Hk in Hr.
    split; [|split].
    + split.
      * unfold OASISInferer.with_fit_params. cbn. congruence.
      * eapply keys_recorded_insert; eauto.
    + eauto 10.
    + intros H0. destruct (Hdec _ _ _ _ _ _ _ _ _ Hr) as [Hc Hs].
      pose proof (well_formed_assoc_length _ _ _ Hwf Hy) as Hly.
      destruct Hout as [[_ ->]|[_ ->]].
      * congruence.
      * unfold np_maximum_scalar. rewrite length_map. congruence.
  - split; [reflexivity|apply keys_recorded_start].
Qed.

(** With at least one column and an [output] that is neither ['denoised']
    nor ['spikes'], [OASISInferer.transform] returns no table. *)
Lemma oasis_transform_unsupported dec X self :
  data X <> [] ->
  OASISInferer.output self <> "denoised" ->
  OASISInferer.output self <> "spikes" ->
  exists e self', OASISInferer.transform dec X self = (Err e, self').
Proof.
  intros Hne Hd Hs. rewrite oasis_transform_loop.
  unfold columns. destruct (data X) as [|[c x] d] eqn:Hdata; [contradiction|].
  simpl.
  destruct (oasis_compute dec X c self) as [[v|e] s1] eqn:Hc.
  - apply oasis_compute_Ok in Hc as (_ & _ & _ & _ & _ & _ & [[H _]|[H _]] & _);
      contradiction.
  - exists e, s1. now apply column_loop_raises.
Qed.

(** ** Sorting and the median under a shift *)

Lemma Qcleb_le p q : Qcleb p q = true <-> (p <= q)%Qc.
Proof. unfold Qcleb, Qcle. apply Qle_bool_iff. Qed.

Lemma Qcleb_shift p q c : Qcleb (p + c) (q + c) = Qcleb p q.
Proof.
  apply eq_true_iff_eq. rewrite !Qcleb_le.
  rewrite (Qcle_minus_iff (p + c)), (Qcle_minus_iff p).
  replace (q + c + - (p + c))%Qc with (q + - p)%Qc by ring. reflexivity.
Qed.

Section Shift.
Variable c : Qc.
Let shift (v : double) : double := dadd v (Fin c).

Lemma dleb_shift a b : dleb (shift a) (shift b) = dleb a b.
Proof.
  destruct a, b; simpl; try reflexivity. apply Qcleb_shift.
Qed.

Lemma is_nan_shift a : is_nan (shift a) = is_nan a.
Proof. now destruct a. Qed.

Lemma insert_sorted_shift a l :
  insert_sorted (shift a) (map shift l) = map shift (insert_sorted a l).
Proof.
  induction l as [|b l IH]; simpl; [reflexivity|].
  rewrite dleb_shift. destruct (dleb a b); simpl; [reflexivity|].
  now rewrite IH.
Qed.

Lemma np_sort_shift l : np_sort (map shift l) = map shift (np_sort l).
Proof.
  unfold np_sort. induction l as [|a l IH]; simpl; [reflexivity|].
  now rewrite IH, insert_sorted_shift.
Qed.

Lemma nth_shift n l : nth n (map shift l) NaN = shift (nth n l NaN).
Proof. change NaN with (shift NaN) at 1. apply map_nth. Qed.

Lemma halve_shift a b :
  ddiv (dadd (shift a) (shift b)) (Fin (Q2Qc 2))
  = shift (ddiv (dadd a b) (Fin (Q2Qc 2))).
Proof.
  destruct a as [p| | |], b as [q| | |]; try reflexivity.
  unfold shift. cbn [dadd].
  unfold ddiv. replace (Qceqb (Q2Qc 2) 0%Qc) with false by reflexivity.
  do 2 cbn [dadd]. f_equal.
  replace (Q2Qc 2) with (1 + 1)%Qc by (apply Qc_is_canon; reflexivity).
  field. discriminate.
Qed.

(** [np.median(x + c) = np.median(x) + c] *)
Lemma np_median_shift x : np_median (map shift x) = shift (np_median x).
Proof.
  unfold np_median. rewrite length_map, np_sort_shift.
  replace (existsb is_nan (map shift x)) with (existsb is_nan x).
  2:{ induction x as [|a x IH]; simpl; [reflexivity|].
      now rewrite is_nan_shift, IH. }
  destruct (existsb is_nan x); [reflexivity|].
  destruct (Nat.eqb (length x) 0); [reflexivity|].
  destruct (Nat.odd (length x)).
  - apply nth_shift.
  - rewrite !nth_shift. apply halve_shift.
Qed.

Lemma deviation_shift v m : dabs (dsub (shift v) (shift m)) = dabs (dsub v m).
Proof.
  destruct v as [p| | |], m as [q| | |]; try reflexivity.
  unfold shift, dsub. cbn [dadd dneg].
  replace (p + c + - (q + c))%Qc with (p + - q)%Qc by ring. reflexivity.
Qed.

(** [robust_std(x + c) = robust_std(x)], on every array. *)
Lemma robust_std_shift x :
  MedianFilterDetrend.robust_std (np_plus_scalar x (Fin c))
  = MedianFilterDetrend.robust_std x.
Proof.
  unfold MedianFilterDetrend.robust_std, np_abs, np_sub_scalar, np_plus_scalar.
  change (fun v => dadd v (Fin c)) with shift.
  rewrite np_median_shift, !map_map. f_equal. f_equal.
  apply map_ext. intros v. apply deviation_shift.
Qed.
End Shift.

(** ** The median of finite values is finite *)

Lemma insert_sorted_Forall (P : double -> Prop) a l :
  P a -> Forall P l -> Forall P (insert_sorted a l).
Proof.
  intros Ha. induction 1 as [|b l Hb Hl IH]; simpl.
  - constructor; [assumption|constructor].
  - destruct (dleb a b); repeat constructor; auto.
Qed.

Lemma np_sort_Forall (P : double -> Prop) l : Forall P l -> Forall P (np_sort l).
Proof.
  unfold np_sort. induction 1; simpl; [constructor|].
  now apply insert_sorted_Forall.
Qed.

Lemma insert_sorted_length a l : length (insert_sorted a l) = S (length l).
Proof.
  induction l as [|b l IH]; simpl; [reflexivity|].
  destruct (dleb a b); simpl; [reflexivity|]. now rewrite IH.
Qed.

Lemma np_sort_length l : length (np_sort l) = length l.
Proof.
  unfold np_sort. induction l as [|a l IH]; simpl; [reflexivity|].
  now rewrite insert_sorted_length, IH.
Qed.

Lemma finite_nth l n :
  Forall is_finite l -> (n < length l)%nat -> exists q, nth n l NaN = Fin q.
Proof.
  intros Hl Hn.
  assert (H : is_finite (nth n l NaN)).
  { eapply Forall_nth in Hl; eauto. }
  destruct (nth n l NaN); simpl in H; try contradiction. eauto.
Qed.

Lemma finite_not_nan l : Forall is_finite l -> existsb is_nan l = false.
Proof.
  induction 1 as [|a l Ha Hl IH]; simpl; [reflexivity|].
  destruct a; simpl in *; try contradiction. exact IH.
Qed.

Lemma np_median_finite x :
  x <> [] -> Forall is_finite x -> exists q, np_median x = Fin q.
Proof.
  intros Hne Hfin. unfold np_median.
  rewrite (finite_not_nan _ Hfin).
  destruct (Nat.eqb_spec (length x) 0) as [H0|H0].
  { apply length_zero_iff_nil in H0. contradiction. }
  pose proof (np_sort_Forall _ _ Hfin) as Hs.
  pose proof (np_sort_length x) as Hl.
  destruct (Nat.odd (length x)).
  - apply finite_nth; [assumption|].
    rewrite Hl. apply Nat.div_lt; lia.
  - destruct (finite_nth (np_sort x) (length x / 2 - 1)) as [p Hp];
      [assumption| |].
    { rewrite Hl. pose proof (Nat.div_lt (length x) 2). lia. }
    destruct (finite_nth (np_sort x) (length x / 2)) as [q Hq];
      [assumption| |].
    { rewrite Hl. apply Nat.div_lt; lia. }
    rewrite Hp, Hq. cbn [dadd]. unfold ddiv.
    replace (Qceqb (Q2Qc 2) 0%Qc) with false by reflexivity. eauto.
Qed.

Lemma robust_std_finite x :
  x <> [] -> Forall is_finite x ->
  exists r, MedianFilterDetrend.robust_std x = Fin r.
Proof.
  intros Hne Hfin. unfold MedianFilterDetrend.robust_std.
  destruct (np_median_finite x Hne Hfin) as [m Hm]. rewrite Hm.
  destruct (np_median_finite (np_abs (np_sub_scalar x (Fin m)))) as [q Hq].
  - unfold np_abs, np_sub_scalar. destruct x; [contradiction|discriminate].
  - unfold np_abs, np_sub_scalar. rewrite map_map.
    apply Forall_map. eapply Forall_impl; [exact Hfin|].
    intros [p| | |] Hp; simpl in *; try contradiction. exact I.
  - rewrite Hq. cbn [dmul]. eauto.
Qed.

(** ** What the loops do to the instance, and when they return *)

Lemma column_loop_state {S} (compute : string -> py S ndarray)
    (J : list string -> S -> Prop) pre rest X_new s X' s' :
  (forall pre col s d s',
      J pre s -> compute col s = (Ok d, s') -> J (pre ++ [col]) s') ->
  J pre s ->
  for_each rest (column_body compute) X_new s = (Ok X', s') ->
  J (pre ++ rest) s'.
Proof.
  intros Hstep. revert pre X_new s.
  induction rest as [|col rest IH]; intros pre X_new s HJ; simpl.
  - intros [= <- <-]. now rewrite app_nil_r.
  - unfold bind, column_body at 1.
    destruct (compute col s) as [[d|e] s1] eqn:Hc; [|discriminate].
    destruct (setitem X_new col d) as [X1|e]; [|discriminate].
    intros Hrun. replace (pre ++ col :: rest) with ((pre ++ [col]) ++ rest)
      by now rewrite <- app_assoc.
    eapply IH; eauto.
Qed.

Lemma median_transform_keys X self X' self' m0 :
  MedianFilterDetrend.fit_params self = Some m0 ->
  MedianFilterDetrend.transform X self = (Ok X', self') ->
  exists m, MedianFilterDetrend.fit_params self' = Some m
            /\ dom m = dom m0 ∪ list_to_set (columns X).
Proof.
  intros Hfp. rewrite median_transform_loop. intros Hrun.
  pose proof (column_loop_state (median_compute X)
                (keys_recorded MedianFilterDetrend.fit_params self)
                [] (columns X) (copy X) self X' self') as H.
  assert (Hkeys : keys_recorded MedianFilterDetrend.fit_params self (columns X) self').
  { apply H; [|apply keys_recorded_start|exact Hrun].
    intros pre col s d s1 Hrec Hc.
    apply median_compute_Ok in Hc as (x & b & m & _ & _ & Hm & _ & ->).
    eapply keys_recorded_insert; eauto. }
  unfold keys_recorded in Hkeys. now rewrite Hfp in Hkeys.
Qed.

Lemma savgol_transform_keys sf X self X' self' m0 :
  SavGolFilterDetrend.fit_params self = Some m0 ->
  SavGolFilterDetrend.transform sf X self = (Ok X', self') ->
  exists m, SavGolFilterDetrend.fit_params self' = Some m
            /\ dom m = dom m0 ∪ list_to_set (columns X).
Proof.
  intros Hfp. rewrite savgol_transform_loop. intros Hrun.
  pose proof (column_loop_state (savgol_compute sf X)
                (keys_recorded SavGolFilterDetrend.fit_params self)
                [] (columns X) (copy X) self X' self') as H.
  assert (Hkeys : keys_recorded SavGolFilterDetrend.fit_params self (columns X) self').
  { apply H; [|apply keys_recorded_start|exact Hrun].
    intros pre col s d s1 Hrec Hc.
    apply savgol_compute_Ok in Hc as (x & b & m & _ & _ & Hm & _ & ->).
    eapply keys_recorded_insert; eauto. }
  unfold keys_recorded in Hkeys. now rewrite Hfp in Hkeys.
Qed.

Lemma oasis_transform_keys dec X self X' self' m0 :
  OASISInferer.fit_params self = Some m0 ->
  OASISInferer.transform dec X self = (Ok X', self') ->
  exists m, OASISInferer.fit_params self' = Some m
            /\ dom m = dom m0 ∪ list_to_set (columns X).
Proof.
  intros Hfp. rewrite oasis_transform_loop. intros Hrun.
  pose proof (column_loop_state (oasis_compute dec X)
                (keys_recorded OASISInferer.fit_params self)
                [] (columns X) (copy X) self X' self') as H.
  assert (Hkeys : keys_recorded OASISInferer.fit_params self (columns X) self').
  { apply H; [|apply keys_recorded_start|exact Hrun].
    intros pre col s d s1 Hrec Hc.
    apply oasis_compute_Ok in Hc as (x & b & m & _ & _ & Hm & _ & ->).
    eapply keys_recorded_insert; eauto. }
  unfold keys_recorded in Hkeys. now rewrite Hfp in Hkeys.
Qed.


(** [OASISInferer.transform] returns a table once [fit] has run, [output] is
    ['denoised'] or ['spikes'], and the solver succeeds on every column and
    keeps its length. *)
Lemma oasis_transform_returns dec X self :
  well_formed X ->
  is_Some (OASISInferer.fit_params self) ->
  (OASISInferer.output self = "denoised" \/ OASISInferer.output self = "spikes") ->
  solver_keeps_length dec ->
  (forall col y, assoc col (data X) = Some y ->
     is_Ok (dec y (OASISInferer.cfg_g self) (OASISInferer.cfg_sn self)
              (OASISInferer.cfg_b self) (OASISInferer.b_nonneg self)
              (OASISInferer.optimize_g self) (OASISInferer.penalty self)
              (OASISInferer.kwargs self)) = true) ->
  exists X' self', OASISInferer.transform dec X self = (Ok X', self').
Proof.
  intros Hwf Hfp Hout Hkeep Hdec. rewrite oasis_transform_loop.
  apply (column_loop_returns X (oasis_compute dec X)
           (fun _ s =>
              OASISInferer.with_fit_params s None
              = OASISInferer.with_fit_params self None
              /\ is_Some (OASISInferer.fit_params s)) Hwf); [|auto].
  intros pre col s (Hcfg & [m Hm]) Hin.
  apply columns_assoc in Hin as [y Hy].
  specialize (Hdec _ _ Hy).
  injection Hcfg as Ho Hg Hsn Hb Hbn Hog Hp Hk.
  unfold oasis_compute, bind, lift, ret, getitem, OASISInferer.set_fit_param.
  rewrite Hy, Hg, Hsn, Hb, Hbn, Hog, Hp, Hk.
  destruct (dec y _ _ _ _ _ _ _) as [r|e] eqn:Hr; [|discriminate].
  destruct (Hkeep _ _ _ _ _ _ _ _ _ Hr) as [Hc Hs].
  pose proof (well_formed_assoc_length _ _ _ Hwf Hy) as Hly.
  rewrite Hm. cbn [OASISInferer.output OASISInferer.with_fit_params]. rewrite Ho.
  assert (Hcfg' : forall fp, OASISInferer.with_fit_params
                    (OASISInferer.with_fit_params s fp) None
                  = OASISInferer.with_fit_params self None).
  { intros fp. unfold OASISInferer.with_fit_params. cbn. congruence. }
  destruct Hout as [->| ->]; simpl.
  - do 2 eexists. split; [reflexivity|]. split; [congruence|].
    split; [apply Hcfg'|]. cbn. eauto.
  - do 2 eexists. split; [reflexivity|]. split.
    + unfold np_maximum_scalar. rewrite length_map. congruence.
    + split; [apply Hcfg'|]. cbn. eauto.
Qed.

Lemma sample_table_wf : well_formed sample_table.
Proof. apply (bool_decide_unpack _). vm_compute. exact I. Qed.

Lemma short_table_wf : well_formed short_table.
Proof. apply (bool_decide_unpack _). vm_compute. exact I. Qed.

Lemma negative_table_wf : well_formed negative_table.
Proof. apply (bool_decide_unpack _). vm_compute. exact I. Qed.

Lemma no_columns_wf : well_formed no_columns.
Proof. apply (bool_decide_unpack _). vm_compute. exact I. Qed.

Lemma savgol_filter_checked_rejects smooth x w o :
  w <= o \/ Z.even w = true ->
  savgol_filter_checked smooth x w o = Err ValueError.
Proof.
  intros H. unfold savgol_filter_checked.
  destruct (Z.leb_spec w o); [reflexivity|].
  destruct H as [H|H]; [lia|].
  rewrite Zmod_even, H. reflexivity.
Qed.

Lemma dlog_negative ln a : dsign a = Some true -> EventRescale.dlog ln a = NaN.
Proof.
  destruct a as [q| | |]; simpl; try discriminate; [|reflexivity].
  destruct (Qcltb q 0%Qc); [reflexivity|].
  destruct (Qcltb 0%Qc q); discriminate.
Qed.

Lemma rescale_transform_state ln X self X' self' :
  EventRescale.transform ln X self = (Ok X', self') -> self' = self.
Proof.
  rewrite rescale_transform_loop. intros Hrun.
  apply (column_loop_state (rescale_compute ln X) (fun _ s => s = self)
           [] (columns X) (copy X) self X' self'); auto.
  intros pre col s d s1 -> Hc.
  unfold rescale_compute, bind, lift, ret in Hc.
  destruct (getitem X col); now inversion Hc.
Qed.

(** ** Updates in place: what a transform may write to *)

Section WritesAbove.
Variable n : nat.

Lemma writes_ret {A} (x : A) (Q : A -> Prop) : Q x -> writes_above n (ret x) Q.
Proof. intros HQ w Hn. simpl. auto. Qed.

Lemma writes_raise {A} e (Q : A -> Prop) : writes_above n (raise e) Q.
Proof. intros w Hn. simpl. auto. Qed.

Lemma writes_lift {A} (r : result A) : writes_above n (lift r) (fun x => r = Ok x).
Proof. intros w Hn. simpl. destruct r; auto. Qed.

Lemma writes_weaken {A} (m : py world A) (Q Q' : A -> Prop) :
  writes_above n m Q -> (forall x, Q x -> Q' x) -> writes_above n m Q'.
Proof.
  intros Hm HQ w Hn. destruct (Hm w Hn) as (H1 & H2 & H3).
  do 2 (split; [assumption|]). destruct (fst (m w)); auto.
Qed.

Lemma writes_bind {A B} (m : py world A) (k : A -> py world B)
    (Q : A -> Prop) (R : B -> Prop) :
  writes_above n m Q -> (forall x, Q x -> writes_above n (k x) R) ->
  writes_above n (bind m k) R.
Proof.
  intros Hm Hk w Hn. destruct (Hm w Hn) as (H1 & H2 & H3).
  unfold bind. destruct (m w) as [[x|e] w1]; simpl in *; [|auto].
  destruct (Hk x H3 w1) as (K1 & K2 & K3); [lia|].
  split; [lia|]. split; [|assumption].
  intros a Ha. rewrite K2, H2; auto.
Qed.

Lemma writes_new o : writes_above n (new o) (fun a => (n <= a)%nat).
Proof.
  intros w Hn. simpl. rewrite length_app. simpl. split; [lia|].
  split; [|assumption].
  intros a Ha. apply lookup_app_l. lia.
Qed.

Lemma writes_get_array a : writes_above n (get_array a) (fun _ => True).
Proof.
  intros w Hn. unfold get_array.
  destruct (objects w !! a) as [[v|k cols]|]; simpl; auto.
Qed.

Lemma writes_get_frame a : writes_above n (get_frame a) (fun _ => True).
Proof.
  intros w Hn. unfold get_frame.
  destruct (objects w !! a) as [[v|k cols]|]; simpl; auto.
Qed.

Lemma writes_put a o : (n <= a)%nat -> writes_above n (put a o) (fun _ => True).
Proof.
  intros Ha w Hn. simpl. rewrite length_insert. split; [lia|].
  split; [|exact I].
  intros b Hb. apply list_lookup_insert_ne. lia.
Qed.

Lemma writes_set_fit_param col entry :
  writes_above n (ref_set_fit_param col entry) (fun _ => True).
Proof.
  intros w Hn. unfold ref_set_fit_param.
  destruct (attr_fit_params w); simpl; auto.
Qed.

Lemma writes_for_each {A B} (l : list A) (body : A -> B -> py world B)
    (Q : B -> Prop) acc :
  (forall a b, Q b -> writes_above n (body a b) Q) ->
  Q acc -> writes_above n (for_each l body acc) Q.
Proof.
  intros Hbody. revert acc.
  induction l as [|a l IH]; intros acc Hacc; simpl.
  - now apply writes_ret.
  - eapply writes_bind; [apply Hbody, Hacc|]. intros b Hb. now apply IH.
Qed.

Lemma writes_for {A} (l : list A) (body : A -> py world unit) :
  (forall a, writes_above n (body a) (fun _ => True)) ->
  writes_above n (for_ l body) (fun _ => True).
Proof. intros Hbody. apply writes_for_each; auto. Qed.

Lemma writes_map_py {A B} (f : A -> py world B) (l : list A) :
  (forall a, writes_above n (f a) (fun _ => True)) ->
  writes_above n (map_py f l) (fun _ => True).
Proof.
  intros Hf. induction l as [|a l IH]; simpl.
  - now apply writes_ret.
  - eapply writes_bind; [apply Hf|]. intros b _.
    eapply writes_bind; [apply IH|]. intros bs _. now apply writes_ret.
Qed.

(** The operations on frames and arrays. *)

Lemma writes_copy X : writes_above n (ref_copy X) (fun X_new => (n <= X_new)%nat).
Proof.
  unfold ref_copy.
  eapply writes_bind; [apply writes_get_frame|]. intros f _.
  eapply writes_bind.
  - apply writes_map_py. intros ca.
    eapply writes_bind; [apply writes_get_array|]. intros v _.
    eapply writes_bind; [apply writes_new|]. intros a _. now apply writes_ret.
  - intros cols _. apply writes_new.
Qed.

Lemma writes_columns X : writes_above n (ref_columns X) (fun _ => True).
Proof.
  unfold ref_columns.
  eapply writes_bind; [apply writes_get_frame|]. intros f _. now apply writes_ret.
Qed.

Lemma writes_values X col : writes_above n (ref_values X col) (fun _ => True).
Proof.
  unfold ref_values.
  eapply writes_bind; [apply writes_get_frame|]. intros f _.
  destruct (assoc_ref col (snd f)); [now apply writes_ret|apply writes_raise].
Qed.

Lemma writes_astype a : writes_above n (ref_astype a) (fun b => (n <= b)%nat).
Proof.
  unfold ref_astype.
  eapply writes_bind; [apply writes_get_array|]. intros v _. apply writes_new.
Qed.

Lemma writes_imul a m :
  (n <= a)%nat -> writes_above n (ref_imul a m) (fun _ => True).
Proof.
  intros Ha. unfold ref_imul.
  eapply writes_bind; [apply writes_get_array|]. intros v _. now apply writes_put.
Qed.

Lemma writes_apply f a : writes_above n (ref_apply f a) (fun b => (n <= b)%nat).
Proof.
  unfold ref_apply.
  eapply writes_bind; [apply writes_get_array|]. intros v _.
  eapply writes_bind; [apply writes_lift|]. intros r _. apply writes_new.
Qed.

Lemma writes_apply2 f a b :
  writes_above n (ref_apply2 f a b) (fun c => (n <= c)%nat).
Proof.
  unfold ref_apply2.
  eapply writes_bind; [apply writes_get_array|]. intros v _.
  eapply writes_bind; [apply writes_get_array|]. intros u _.
  eapply writes_bind; [apply writes_lift|]. intros r _. apply writes_new.
Qed.

Lemma writes_setitem X_new col a :
  (n <= X_new)%nat -> writes_above n (ref_setitem X_new col a) (fun _ => True).
Proof.
  intros HX. unfold ref_setitem.
  eapply writes_bind; [apply writes_get_frame|]. intros f _.
  eapply writes_bind; [apply writes_get_array|]. intros v _.
  destruct (_ && _).
  - eapply writes_bind.
    + apply writes_map_py. intros cb.
      eapply writes_bind; [apply writes_new|]. intros b _. now apply writes_ret.
    + intros cols _. now apply writes_put.
  - destruct (Nat.eqb _ _); [now apply writes_put|apply writes_raise].
Qed.

(** The four transforms write to new objects only. *)

Lemma median_transform_ref_writes window thr X :
  writes_above n (median_transform_ref window thr X) (fun X_new => (n <= X_new)%nat).
Proof.
  unfold median_transform_ref.
  eapply writes_bind; [apply writes_copy|]. intros X_new HX.
  eapply writes_bind; [apply writes_columns|]. intros cols _.
  eapply writes_bind; [|intros _ _; now apply writes_ret].
  apply writes_for. intros col.
  eapply writes_bind; [apply writes_values|]. intros v _.
  eapply writes_bind; [apply writes_astype|]. intros tmp_data Htmp.
  eapply writes_bind; [apply writes_apply|]. intros mf0 _.
  eapply writes_bind; [apply writes_apply|]. intros mf _.
  eapply writes_bind; [apply writes_set_fit_param|]. intros _ _.
  eapply writes_bind; [apply writes_apply2|]. intros d _.
  now apply writes_setitem.
Qed.

Lemma savgol_transform_ref_writes sf window order X :
  writes_above n (savgol_transform_ref sf window order X)
    (fun X_new => (n <= X_new)%nat).
Proof.
  unfold savgol_transform_ref.
  eapply writes_bind; [apply writes_copy|]. intros X_new HX.
  eapply writes_bind; [apply writes_columns|]. intros cols _.
  eapply writes_bind; [|intros _ _; now apply writes_ret].
  apply writes_for. intros col.
  eapply writes_bind; [apply writes_values|]. intros v _.
  eapply writes_bind; [apply writes_astype|]. intros tmp_data Htmp.
  eapply writes_bind; [apply writes_apply|]. intros sgf _.
  eapply writes_bind; [apply writes_set_fit_param|]. intros _ _.
  eapply writes_bind; [apply writes_apply2|]. intros d _.
  now apply writes_setitem.
Qed.

Lemma rescale_transform_ref_writes ln log_transform scale X :
  writes_above n (rescale_transform_ref ln log_transform scale X)
    (fun X_new => (n <= X_new)%nat).
Proof.
  unfold rescale_transform_ref.
  eapply writes_bind; [apply writes_copy|]. intros X_new HX.
  eapply writes_bind; [apply writes_columns|]. intros cols _.
  eapply writes_bind; [|intros _ _; now apply writes_ret].
  apply writes_for. intros col.
  eapply writes_bind; [apply writes_values|]. intros v _.
  eapply writes_bind; [apply writes_astype|]. intros tmp_data Htmp.
  eapply writes_bind; [now apply writes_imul|]. intros _ _.
  eapply writes_bind with (Q := fun _ => True).
  - destruct log_transform; [|now apply writes_ret].
    eapply writes_bind; [apply writes_apply|]. intros one_plus _.
    eapply writes_weaken; [apply writes_apply|]. auto.
  - intros out _. now apply writes_setitem.
Qed.

Lemma oasis_transform_ref_writes dec overwrite output X :
  writes_above n (oasis_transform_ref dec overwrite output X)
    (fun X_new => (n <= X_new)%nat).
Proof.
  unfold oasis_transform_ref.
  eapply writes_bind; [apply writes_copy|]. intros X_new HX.
  eapply writes_bind; [apply writes_columns|]. intros cols _.
  eapply writes_bind; [|intros _ _; now apply writes_ret].
  apply writes_for. intros col.
  eapply writes_bind; [apply writes_values|]. intros v _.
  eapply writes_bind; [apply writes_astype|]. intros y Hy.
  eapply writes_bind; [apply writes_get_array|]. intros trace _.
  eapply writes_bind; [now apply writes_put|]. intros _ _.
  eapply writes_bind; [apply writes_lift|]. intros r _.
  eapply writes_bind; [apply writes_set_fit_param|]. intros _ _.
  destruct (String.eqb output "denoised").
  - eapply writes_bind; [apply writes_new|]. intros c _. now apply writes_setitem.
  - destruct (String.eqb output "spikes"); [|apply writes_raise].
    eapply writes_bind; [apply writes_new|]. intros s _. now apply writes_setitem.
Qed.
End WritesAbove.

Lemma writes_above_untouched {A} (m : py world A) (Q : A -> Prop) w :
  writes_above (length (objects w)) m Q -> untouched w (snd (m w)).
Proof.
  intros Hm. destruct (Hm w) as (H1 & H2 & _); [lia|]. split; assumption.
Qed.

Lemma read_columns_untouched w w' cols d :
  untouched w w' ->
  read_columns (objects w) cols = Some d ->
  read_columns (objects w') cols = Some d.
Proof.
  intros [_ Hsame]. revert d.
  induction cols as [|[c a] cols IH]; intros d; simpl; [auto|].
  destruct (objects w !! a) as [[v|k cs]|] eqn:Ha; try discriminate.
  destruct (read_columns (objects w) cols) as [d'|]; [|discriminate].
  intros [= <-].
  rewrite Hsame, Ha by (eapply lookup_lt_Some; eauto).
  now rewrite (IH d').
Qed.

Lemma read_frame_untouched w w' X T :
  untouched w w' -> read_frame w X = Some T -> read_frame w' X = Some T.
Proof.
  intros Hu. unfold read_frame.
  destruct (objects w !! X) as [[v|n cols]|] eqn:HX; try discriminate.
  destruct (read_columns (objects w) cols) as [d|] eqn:Hd; [|discriminate].
  intros [= <-].
  destruct Hu as [Hlen Hsame].
  rewrite Hsame, HX by (eapply lookup_lt_Some; eauto).
  now rewrite (read_columns_untouched w w' cols d (conj Hlen Hsame) Hd).
Qed.

(** The store can tell an update in place: multiplying the array that
    [X[col].values] refers to changes the table that [X] holds. *)
Example imul_on_values_changes_the_table :
  read_frame sample_world 1 = Some {| index_len := 3;
                                      data := [("a", [dbl 1; dbl 5; dbl 2])] |}
  /\ read_frame (snd ((v <- ref_values 1 "a" ;; ref_imul v (dbl 5))%py sample_world)) 1
     = Some {| index_len := 3; data := [("a", [dbl 5; dbl 25; dbl 10])] |}.
Proof.
  split; apply (bool_decide_unpack _); vm_compute; exact I.
Qed.

(** ** The statements of [normalize_trace] on a constant trace

    What follows the failing lookup of [pd] in [normalize_trace] does compute
    a [dFF] of zeros for a constant trace. *)

Lemma Qcltb_false a b : (b <= a)%Qc -> Qcltb a b = false.
Proof. intros H. unfold Qcltb. apply Qcleb_le in H. unfold Qcleb in H. now rewrite H. Qed.

Lemma np_sort_replicate v k :
  dleb v v = true -> np_sort (replicate k v) = replicate k v.
Proof.
  intros Hv. unfold np_sort. induction k as [|k IH]; simpl; [reflexivity|].
  rewrite IH. destruct k; simpl; [reflexivity|]. now rewrite Hv.
Qed.

Lemma nth_replicate_lt {A} i k (v d : A) :
  (i < k)%nat -> nth i (replicate k v) d = v.
Proof.
  revert i. induction k as [|k IH]; intros i Hi; [lia|].
  destruct i; simpl; [reflexivity|]. apply IH. lia.
Qed.

Lemma percentile_rank_range (p : Qc) (k : Z) :
  (0 <= p)%Qc -> (p <= Q2Qc 100)%Qc -> 0 <= k ->
  0 <= Qfloor (this (p / Q2Qc 100 * Q2Qc (inject_Z k))%Qc) <= k.
Proof.
  intros Hp0 Hp100 Hk.
  set (K := Q2Qc (inject_Z k)).
  assert (HK : (0 <= K)%Qc).
  { unfold Qcle, K.
    change (this (Q2Qc (inject_Z k))) with (Qred (inject_Z k)).
    rewrite Qred_correct. change (inject_Z 0 <= inject_Z k)%Q.
    now rewrite <- Zle_Qle. }
  assert (Hinv : (0 <= / Q2Qc 100)%Qc) by discriminate.
  assert (Ht0 : (0 <= p / Q2Qc 100)%Qc).
  { replace 0%Qc with (0 * / Q2Qc 100)%Qc by ring.
    now apply Qcmult_le_compat_r. }
  assert (Ht1 : (p / Q2Qc 100 <= 1)%Qc).
  { replace 1%Qc with (Q2Qc 100 * / Q2Qc 100)%Qc
      by (apply Qcmult_inv_r; discriminate).
    now apply Qcmult_le_compat_r. }
  assert (Hv0 : (0 <= p / Q2Qc 100 * K)%Qc).
  { replace 0%Qc with (0 * K)%Qc by ring. now apply Qcmult_le_compat_r. }
  assert (Hv1 : (p / Q2Qc 100 * K <= K)%Qc).
  { replace K with (1 * K)%Qc at 2 by ring. now apply Qcmult_le_compat_r. }
  split.
  - change 0 with (Qfloor 0). apply Qfloor_resp_le. exact Hv0.
  - apply Z.le_trans with (Qfloor (this K)).
    + apply Qfloor_resp_le. exact Hv1.
    + unfold K. change (this (Q2Qc (inject_Z k))) with (Qred (inject_Z k)).
      rewrite Qred_correct, Qfloor_Z. lia.
Qed.

Lemma np_percentile_constant (c p : Qc) (w : nat) :
  (0 <= p)%Qc -> (p <= Q2Qc 100)%Qc -> (1 <= w)%nat ->
  np_percentile (replicate w (Fin c)) p = Ok (Fin c).
Proof.
  intros Hp0 Hp100 Hw. unfold np_percentile.
  rewrite (Qcltb_false p 0%Qc Hp0), (Qcltb_false (Q2Qc 100) p Hp100). simpl.
  rewrite finite_not_nan by (apply Forall_replicate; exact I).
  rewrite length_replicate, np_sort_replicate
    by (simpl; apply Qcleb_le, Qcle_refl).
  pose proof (percentile_rank_range p (Z.of_nat (w - 1)) Hp0 Hp100) as Hr.
  destruct Hr as [Hlo Hhi]; [lia|].
  set (lo := Qfloor _) in *.
  rewrite !nth_replicate_lt by lia.
  unfold dsub. simpl. f_equal. f_equal. ring.
Qed.

Lemma mapM_result_map {A B} (g : A -> result B) (h : A -> B) l :
  (forall a, a ∈ l -> g a = Ok (h a)) -> mapM_result g l = Ok (map h l).
Proof.
  induction l as [|a l IH]; intros Hg; simpl; [reflexivity|].
  rewrite Hg by apply list_elem_of_here.
  rewrite IH; [reflexivity|].
  intros b Hb. apply Hg. now apply list_elem_of_further.
Qed.

(** The rolling percentile of a constant trace: the constant wherever the
    window fits, nan elsewhere. *)
Lemma rolling_apply_constant (c p : Qc) (n w : nat) :
  (0 <= p)%Qc -> (p <= Q2Qc 100)%Qc -> (1 <= w)%nat ->
  rolling_apply (fun x => np_percentile x p) (replicate n (Fin c)) w
  = Ok (map (fun i => if ((w <=? i + (w - 1) / 2 + 1)
                          && (i + (w - 1) / 2 <? n))%nat
                      then Fin c else NaN) (seq 0 n)).
Proof.
  intros Hp0 Hp100 Hw. unfold rolling_apply. rewrite length_replicate.
  apply mapM_result_map. intros i _.
  destruct (Nat.leb_spec w (i + (w - 1) / 2 + 1)) as [H1|H1]; [|reflexivity].
  destruct (Nat.ltb_spec (i + (w - 1) / 2) n) as [H2|H2]; [|reflexivity].
  cbn [andb].
  change (firstn w (skipn ?k ?l)) with (take w (drop k l)).
  rewrite drop_replicate, take_replicate.
  replace (w `min` (n - (i + (w - 1) / 2 + 1 - w)))%nat with w by lia.
  rewrite finite_not_nan by (apply Forall_replicate; exact I).
  now apply np_percentile_constant.
Qed.

Lemma bfill_two_valued (v : double) l :
  is_nan v = false ->
  Forall (fun u => u = v \/ u = NaN) l ->
  exists k m, bfill l = replicate k v ++ replicate m NaN
              /\ (k + m)%nat = length l
              /\ (v ∈ l -> (1 <= k)%nat).
Proof.
  intros Hv. induction 1 as [|u l Hu Hl IH].
  - exists 0%nat, 0%nat. repeat split. intros H. inversion H.
  - destruct IH as (k & m & Hb & Hlen & Hk). simpl. rewrite Hb.
    destruct Hu as [->| ->].
    + rewrite Hv. exists (S k), m. simpl. repeat split; [lia|lia].
    + simpl. destruct k as [|k].
      * exists 0%nat, (S m). simpl. split; [|split; [lia|]].
        -- destruct m; reflexivity.
        -- intros Hin. inversion Hin; subst; [discriminate|]. apply Hk. assumption.
      * exists (S (S k)), m. simpl. repeat split; [lia|lia].
Qed.

Lemma ffill_from_nans v m :
  is_nan v = false -> ffill_from v (replicate m NaN) = replicate m v.
Proof.
  intros Hv. induction m as [|m IH]; simpl; [reflexivity|]. now rewrite IH.
Qed.

Lemma ffill_from_filled last v k m :
  is_nan v = false ->
  (last = v \/ (1 <= k)%nat) ->
  ffill_from last (replicate k v ++ replicate m NaN) = replicate (k + m) v.
Proof.
  intros Hv. revert last. induction k as [|k IH]; intros last Hlast; simpl.
  - destruct Hlast as [->|?]; [|lia]. now apply ffill_from_nans.
  - rewrite Hv. f_equal. apply IH. now left.
Qed.

(** Back-filling and then forward-filling a baseline that is the constant
    somewhere and nan elsewhere gives the constant everywhere. *)
Lemma fill_two_valued (v : double) l :
  is_nan v = false ->
  Forall (fun u => u = v \/ u = NaN) l -> v ∈ l ->
  ffill (bfill l) = replicate (length l) v.
Proof.
  intros Hv Hl Hin.
  destruct (bfill_two_valued v l Hv Hl) as (k & m & -> & <- & Hk).
  unfold ffill. apply ffill_from_filled; auto.
Qed.

Lemma normalize_trace_body_constant (c : Qc) (n : nat) (window : Z) (percentile : Qc) :
  c <> 0%Qc ->
  1 <= window <= Z.of_nat n ->
  (0 <= percentile)%Qc -> (percentile <= Q2Qc 100)%Qc ->
  normalize_trace_body (replicate n (Fin c)) window percentile
  = Ok (replicate n (Fin 0%Qc)).
Proof.
  intros Hc Hw Hp0 Hp100. unfold normalize_trace_body.
  destruct (Z.ltb_spec window 1); [lia|].
  set (w := Z.to_nat window).
  assert (Hw1 : (1 <= w)%nat) by lia.
  assert (Hwn : (w <= n)%nat) by lia.
  rewrite (rolling_apply_constant c percentile n w Hp0 Hp100 Hw1).
  set (baseline := map _ (seq 0 n)).
  assert (Hfill : ffill (bfill baseline) = replicate n (Fin c)).
  { assert (Hlen : length baseline = n)
      by (unfold baseline; now rewrite length_map, length_seq).
    rewrite <- Hlen at 1.
    apply fill_two_valued; [reflexivity| |].
    - unfold baseline. apply Forall_map, Forall_forall. intros i _.
      simpl. destruct (_ && _); auto.
    - unfold baseline. apply list_elem_of_In, in_map_iff.
      exists (w - 1 - (w - 1) / 2)%nat.
      pose proof (Nat.Div0.div_le_upper_bound (w - 1) 2 (w - 1)) as Hdiv.
      assert ((w - 1) / 2 <= w - 1)%nat by (apply Hdiv; lia).
      split.
      + destruct (Nat.leb_spec w (w - 1 - (w - 1) / 2 + (w - 1) / 2 + 1));
          [|lia].
        destruct (Nat.ltb_spec (w - 1 - (w - 1) / 2 + (w - 1) / 2) n);
          [reflexivity|lia].
      + apply in_seq. lia. }
  rewrite Hfill, !zip_with_replicate. f_equal. f_equal.
  unfold dsub. simpl. unfold ddiv.
  replace (Qceqb c 0%Qc) with false.
  - f_equal. field. exact Hc.
  - symmetry. unfold Qceqb. apply not_true_is_false. intros Heq.
    apply Qeq_bool_iff in Heq. apply Hc. now apply Qc_is_canon.
Qed.

(** ** [robust_std] over an arithmetic: where a shift is exact *)

Lemma insert_in_exact a l : insert_in exact a l = insert_sorted a l.
Proof.
  induction l as [|b l IH]; simpl; [reflexivity|]. now rewrite IH.
Qed.

Lemma sort_in_exact l : sort_in exact l = np_sort l.
Proof.
  induction l as [|a l IH]; [reflexivity|].
  change (insert_in exact a (sort_in exact l) = insert_sorted a (np_sort l)).
  rewrite IH. apply insert_in_exact.
Qed.

Lemma median_in_exact l : median_in exact l = np_median l.
Proof. unfold median_in, np_median. now rewrite sort_in_exact. Qed.

(** On the exact arithmetic, [robust_std_in] is [robust_std] as the
    transformers use it. *)
Lemma robust_std_in_exact x :
  robust_std_in exact x = MedianFilterDetrend.robust_std x.
Proof.
  unfold robust_std_in, MedianFilterDetrend.robust_std, np_abs, np_sub_scalar.
  now rewrite !median_in_exact.
Qed.

Section ShiftIn.
Variable A : arithmetic.
Variable C : num A.
Let f (v : num A) : num A := plus A v C.

Lemma insert_in_Forall (P : num A -> Prop) a l :
  P a -> Forall P l -> Forall P (insert_in A a l).
Proof.
  intros Ha. induction 1 as [|b l Hb Hl IH]; simpl.
  - constructor; [assumption|constructor].
  - destruct (below A a b); repeat constructor; auto.
Qed.

Lemma sort_in_Forall (P : num A -> Prop) l :
  Forall P l -> Forall P (sort_in A l).
Proof.
  unfold sort_in. induction 1; simpl; [constructor|].
  now apply insert_in_Forall.
Qed.

Lemma insert_in_length a l : length (insert_in A a l) = S (length l).
Proof.
  induction l as [|b l IH]; simpl; [reflexivity|].
  destruct (below A a b); simpl; [reflexivity|]. now rewrite IH.
Qed.

Lemma sort_in_length l : length (sort_in A l) = length l.
Proof.
  unfold sort_in. induction l as [|a l IH]; simpl; [reflexivity|].
  now rewrite insert_in_length, IH.
Qed.

Lemma insert_in_shift a l :
  Forall (fun b => below A (f a) (f b) = below A a b) l ->
  insert_in A (f a) (map f l) = map f (insert_in A a l).
Proof.
  induction 1 as [|b l Hb Hl IH]; simpl; [reflexivity|].
  rewrite Hb. destruct (below A a b); simpl; [reflexivity|]. now rewrite IH.
Qed.

Lemma sort_in_shift (P : num A -> Prop) l :
  (forall a b, P a -> P b -> below A (f a) (f b) = below A a b) ->
  Forall P l ->
  sort_in A (map f l) = map f (sort_in A l).
Proof.
  intros Hord. unfold sort_in.
  induction 1 as [|a l Ha Hl IH]; simpl; [reflexivity|].
  rewrite IH. apply insert_in_shift.
  pose proof (sort_in_Forall P l Hl) as Hs. unfold sort_in in Hs.
  eapply Forall_impl; [exact Hs|]. intros b Hb. now apply Hord.
Qed.

Lemma nth_map_in_range (l : list (num A)) i d d' :
  (i < length l)%nat -> nth i (map f l) d = f (nth i l d').
Proof.
  intros Hi. rewrite (nth_indep (map f l) d (f d')) by now rewrite length_map.
  apply map_nth.
Qed.

Lemma existsb_false_Forall (p : num A -> bool) l :
  Forall (fun a => p a = false) l -> existsb p l = false.
Proof.
  induction 1 as [|a l Ha Hl IH]; simpl; [reflexivity|]. now rewrite Ha.
Qed.

Lemma median_in_shift x :
  x <> [] -> shift_is_exact A x C ->
  median_in A (map f x) = f (median_in A x).
Proof.
  intros Hne (Hnan & Hord & Hmid & _). unfold median_in.
  rewrite length_map.
  rewrite (existsb_false_Forall (nan_test A) x)
    by (eapply Forall_impl; [exact Hnan|]; now intros a [H _]).
  rewrite (existsb_false_Forall (nan_test A) (map f x))
    by (apply Forall_map; eapply Forall_impl; [exact Hnan|]; now intros a [_ H]).
  destruct (Nat.eqb_spec (length x) 0) as [H0|H0].
  { apply length_zero_iff_nil in H0. contradiction. }
  assert (Hin : Forall (fun a => a ∈ x) x) by now apply Forall_forall.
  rewrite (sort_in_shift (fun a => a ∈ x) x); [|clear Hin|exact Hin].
  2:{ intros a b Ha Hb. rewrite Forall_forall in Hord.
      specialize (Hord a Ha). rewrite Forall_forall in Hord. now apply Hord. }
  pose proof (sort_in_Forall _ x Hin) as Hs.
  pose proof (sort_in_length x) as Hl.
  assert (Hnth : forall i, (i < length x)%nat ->
                           nth i (sort_in A x) (not_a_number A) ∈ x).
  { intros i Hi. eapply Forall_nth in Hs; eauto. lia. }
  destruct (Nat.odd (length x)).
  - apply nth_map_in_range. rewrite Hl. apply Nat.div_lt; lia.
  - assert (H1 : (length x / 2 - 1 < length x)%nat)
      by (pose proof (Nat.div_lt (length x) 2); lia).
    assert (H2 : (length x / 2 < length x)%nat) by (apply Nat.div_lt; lia).
    rewrite (nth_map_in_range _ _ _ (not_a_number A)) by lia.
    rewrite (nth_map_in_range _ _ _ (not_a_number A)) by lia.
    rewrite Forall_forall in Hmid.
    specialize (Hmid _ (Hnth _ H1)). rewrite Forall_forall in Hmid.
    apply (Hmid _ (Hnth _ H2)).
Qed.

End ShiftIn.

(** In the exact arithmetic of [double], the shift of a non-empty array of
    finite values by a finite constant leaves [robust_std] as it is. *)
Lemma robust_std_shift_exact_arithmetic (x : list Qc) (C : Qc) :
  x <> [] ->
  exists r : Qc,
    MedianFilterDetrend.robust_std (map Fin x) = Fin r
    /\ MedianFilterDetrend.robust_std (np_plus_scalar (map Fin x) (Fin C)) = Fin r.
Proof.
  intros Hne.
  destruct (robust_std_finite (map Fin x)) as [r Hr].
  - destruct x; [contradiction|discriminate].
  - apply Forall_map. apply Forall_forall. intros q _. exact I.
  - exists r. split; [exact Hr|]. now rewrite robust_std_shift.
Qed.

(** In the exact arithmetic every shift of finite values is exact. *)
Lemma shift_is_exact_in_exact_arithmetic (x : list Qc) (C : Qc) :
  x <> [] -> shift_is_exact exact (map Fin x) (Fin C).
Proof.
  intros Hne. unfold shift_is_exact. simpl.
  assert (Hfin : Forall is_finite (map Fin x)).
  { apply Forall_map, Forall_forall. intros q _. exact I. }
  repeat apply conj.
  - apply Forall_map, Forall_forall. intros q _. simpl. auto.
  - apply Forall_forall. intros a _. apply Forall_forall. intros b _.
    apply dleb_shift.
  - apply Forall_forall. intros a _. apply Forall_forall. intros b _.
    apply halve_shift.
  - rewrite median_in_exact.
    destruct (np_median_finite (map Fin x)) as [m Hm]; [|exact Hfin|].
    { destruct x; [contradiction|discriminate]. }
    rewrite Hm. apply Forall_map, Forall_forall. intros q _. simpl.
    unfold dsub. simpl. f_equal. ring.
Qed.

(** * The claims *)




(** C2.  Once [fit] has run, with an odd positive window and on a well-formed
    table, [MedianFilterDetrend.transform] returns a table that holds, in
    each column, the input column minus its clamped baseline
    [min(medfilt(x, window), peak_std_threshold * (1.4826 *
    median(|medfilt(x, window) - median(medfilt(x, window))|)))], elementwise,
    and it records that clamped baseline under the column's name in
    [fit_params]. *)
Theorem median_detrend_subtracts_clamped_baseline
    (X : DataFrame) (self : MedianFilterDetrend.t) :
  well_formed X ->
  is_Some (MedianFilterDetrend.fit_params self) ->
  MedianFilterDetrend.window self mod 2 = 1 ->
  0 < MedianFilterDetrend.window self ->
  exists X' self' m',
    MedianFilterDetrend.transform X self = (Ok X', self')
    /\ MedianFilterDetrend.fit_params self' = Some m'
    /\ forall col x,
         assoc col (data X) = Some x ->
         exists baseline,
           spec_clamped_baseline (MedianFilterDetrend.window self)
             (MedianFilterDetrend.peak_std_threshold self) x = Ok baseline
           /\ assoc col (data X') = Some (zip_with dsub x baseline)
           /\ m' !! col = Some {| MedianFilterDetrend.mf := baseline |}.
Proof.
  intros Hwf [m0 Hm0] Hodd Hpos.
  destruct (median_transform_returns _ _ _ Hwf Hm0 Hodd Hpos)
    as (X' & self' & Hrun).
  destruct (median_transform_spec _ _ _ _ Hwf Hrun)
    as ((_ & _ & Hrec) & _ & _ & Hcols).
  rewrite Hm0 in Hrec. destruct Hrec as (m' & Hm' & _ & Hdone & _).
  exists X', self', m'. do 2 (split; [assumption|]).
  intros col x Hx.
  assert (Hin : col ∈ columns X) by (eapply assoc_Some_columns; eauto).
  destruct (Hcols _ Hin) as (d & Hd & x1 & b1 & Hx1 & Hb1 & ->).
  assert (x1 = x) as -> by congruence.
  destruct (Hdone _ Hin) as (x2 & b2 & Hx2 & Hb2 & Hm).
  assert (x2 = x) as -> by congruence.
  assert (b2 = b1) as -> by congruence.
  exists b1. auto.
Qed.

Lemma median_detrend_subtracts_clamped_baseline_witness :
  exists X' self' m',
    MedianFilterDetrend.transform sample_table
      (snd (MedianFilterDetrend.fit sample_table
              (MedianFilterDetrend.__init__ 3 (dbl 4)))) = (Ok X', self')
    /\ MedianFilterDetrend.fit_params self' = Some m'
    /\ forall col x,
         assoc col (data sample_table) = Some x ->
         exists baseline,
           spec_clamped_baseline 3 (dbl 4) x = Ok baseline
           /\ assoc col (data X') = Some (zip_with dsub x baseline)
           /\ m' !! col = Some {| MedianFilterDetrend.mf := baseline |}.
Proof.
  apply (median_detrend_subtracts_clamped_baseline sample_table
           (snd (MedianFilterDetrend.fit sample_table
                   (MedianFilterDetrend.__init__ 3 (dbl 4))))).
  - apply (bool_decide_unpack _). vm_compute. exact I.
  - simpl. eauto.
  - reflexivity.
  - reflexivity.
Defined.

(** C3.  [normalize_trace] and [Normalize.transform] return nothing: on
    every input the first statement of each reads the global [pd], which the
    module never binds, and raises [NameError]. *)
Theorem normalize_raises_NameError :
  (forall trace window percentile,
      normalize_trace trace window percentile = Err (NameError "pd"))
  /\ (forall X self,
        Normalize.transform X self = (Err (NameError "pd"), self)).
Proof. split; reflexivity. Qed.

(** C4, as stated, fails: a window of 3 on a column of length 1 exceeds the
    column, and [MedianFilterDetrend] returns a table. *)
Lemma median_window_longer_than_column_returns :
  (Z.of_nat (index_len short_table) < 3)
  /\ fst (MedianFilterDetrend.fit_transform short_table
            (MedianFilterDetrend.__init__ 3 (dbl 4)))
     = Ok {| index_len := 1; data := [("a", [dbl 1])] |}.
Proof.
  split; [reflexivity|].
  apply (bool_decide_unpack _). vm_compute. exact I.
Qed.

(** C4, amended.  With at least one column and [fit] already run,
    [MedianFilterDetrend.transform] raises the median filter's [ValueError]
    exactly when the window is not a positive odd integer; otherwise it
    returns a table, whatever the length of the columns. *)
Theorem median_window_check (X : DataFrame) (self : MedianFilterDetrend.t) :
  well_formed X ->
  data X <> [] ->
  is_Some (MedianFilterDetrend.fit_params self) ->
  exists X',
    fst (MedianFilterDetrend.transform X self)
    = if Z.odd (MedianFilterDetrend.window self)
         && (0 <? MedianFilterDetrend.window self)
      then Ok X' else Err ValueError.
Proof.
  intros Hwf Hne [m Hm].
  pose proof (Zmod_odd (MedianFilterDetrend.window self)) as Hmod.
  destruct (Z.odd (MedianFilterDetrend.window self)) eqn:Hodd; simpl.
  - destruct (Z.ltb_spec 0 (MedianFilterDetrend.window self)) as [Hpos|Hpos].
    + destruct (median_transform_returns _ _ _ Hwf Hm Hmod Hpos)
        as (X' & self' & Hrun).
      exists X'. now rewrite Hrun.
    + exists X. rewrite median_transform_raises; auto. lia.
  - exists X. rewrite median_transform_raises; auto. lia.
Qed.

Lemma median_window_check_witness :
  exists X',
    fst (MedianFilterDetrend.transform short_table
           (snd (MedianFilterDetrend.fit short_table
                   (MedianFilterDetrend.__init__ 3 (dbl 4)))))
    = if Z.odd 3 && (0 <? 3) then Ok X' else Err ValueError.
Proof.
  apply (median_window_check short_table
           (snd (MedianFilterDetrend.fit short_table
                   (MedianFilterDetrend.__init__ 3 (dbl 4))))).
  - apply (bool_decide_unpack _). vm_compute. exact I.
  - discriminate.
  - simpl. eauto.
Defined.

(** C5, as stated, fails: with an even window of 4 and an order of 3,
    [SavGolFilterDetrend] returns the table it was given when that table has
    no column. *)
Lemma savgol_even_window_no_columns_returns :
  Z.even 4 = true
  /\ fst (SavGolFilterDetrend.fit_transform
            (savgol_filter_checked identity_smoother) no_columns
            (SavGolFilterDetrend.__init__ 4 3))
     = Ok no_columns.
Proof. split; reflexivity. Qed.

(** C5, amended.  When the Savitzky-Golay filter refuses a window that is
    even or not above the order with a [ValueError], so does
    [SavGolFilterDetrend.transform] on every table with at least one
    column. *)
Theorem savgol_window_check
    (savgol_filter : ndarray -> Z -> Z -> result ndarray)
    (X : DataFrame) (self : SavGolFilterDetrend.t) :
  (forall x w o, w <= o \/ Z.even w = true ->
                 savgol_filter x w o = Err ValueError) ->
  SavGolFilterDetrend.window self <= SavGolFilterDetrend.order self
  \/ Z.even (SavGolFilterDetrend.window self) = true ->
  data X <> [] ->
  fst (SavGolFilterDetrend.transform savgol_filter X self) = Err ValueError.
Proof.
  intros Hsf Hbad Hne.
  rewrite (savgol_transform_raises savgol_filter X self ValueError); auto.
Qed.

Lemma savgol_window_check_witness :
  fst (SavGolFilterDetrend.transform (savgol_filter_checked identity_smoother)
         sample_table
         (snd (SavGolFilterDetrend.fit sample_table
                 (SavGolFilterDetrend.__init__ 4 3))))
  = Err ValueError.
Proof.
  apply (savgol_window_check (savgol_filter_checked identity_smoother)
           sample_table
           (snd (SavGolFilterDetrend.fit sample_table
                   (SavGolFilterDetrend.__init__ 4 3)))).
  - apply savgol_filter_checked_rejects.
  - right. reflexivity.
  - discriminate.
Defined.

(** C6.  On a well-formed table [EventRescale.transform] returns a table in
    which every column is [scale * x] elementwise when [log_transform] is
    false and [log(1 + scale * x)] elementwise when it is true. *)
Theorem event_rescale_exact (ln : Qc -> Qc) (X : DataFrame) (self : EventRescale.t) :
  well_formed X ->
  exists X',
    EventRescale.transform ln X self = (Ok X', self)
    /\ forall col x,
         assoc col (data X) = Some x ->
         assoc col (data X')
         = Some (if EventRescale.log_transform self
                 then map (fun v => EventRescale.dlog ln
                                      (dadd (Fin 1%Qc)
                                         (dmul (EventRescale.scale self) v))) x
                 else map (fun v => dmul (EventRescale.scale self) v) x).
Proof.
  intros Hwf.
  destruct (rescale_transform_returns ln X self Hwf) as [X' Hrun].
  exists X'. split; [exact Hrun|].
  intros col x Hx.
  destruct (rescale_transform_spec _ _ _ _ _ Hwf Hrun) as (_ & _ & _ & Hcols).
  apply (Hcols _ _ Hx).
Qed.

Lemma event_rescale_exact_witness :
  exists X',
    EventRescale.transform ln_stub sample_table
      (EventRescale.__init__ false (dbl 5)) = (Ok X', EventRescale.__init__ false (dbl 5))
    /\ forall col x,
         assoc col (data sample_table) = Some x ->
         assoc col (data X') = Some (map (fun v => dmul (dbl 5) v) x).
Proof.
  apply (event_rescale_exact ln_stub sample_table
           (EventRescale.__init__ false (dbl 5))).
  apply (bool_decide_unpack _). vm_compute. exact I.
Defined.

(** C7, as stated, fails: with [log_transform=True] and [scale=5] a column
    holding -1 has [1 + scale * x = -4], and [EventRescale] returns a table,
    with nan in that place. *)
Lemma event_rescale_log_of_negative_returns :
  dadd (Fin 1%Qc) (dmul (dbl 5) (dbl (-1))) = dbl (-4)
  /\ fst (EventRescale.fit_transform ln_stub negative_table
            (EventRescale.__init__ true (dbl 5)))
     = Ok {| index_len := 1; data := [("a", [NaN])] |}.
Proof.
  split.
  - apply (bool_decide_unpack _). vm_compute. exact I.
  - reflexivity.
Qed.

(** C7, amended.  [EventRescale.transform] with [log_transform] true raises
    nothing where [1 + scale * x] is negative: on a well-formed table it
    returns a table, and the entry at every such position is nan. *)
Theorem event_rescale_log_of_negative_is_nan
    (ln : Qc -> Qc) (X : DataFrame) (self : EventRescale.t) :
  well_formed X ->
  EventRescale.log_transform self = true ->
  exists X',
    EventRescale.transform ln X self = (Ok X', self)
    /\ forall col x i v,
         assoc col (data X) = Some x ->
         nth_error x i = Some v ->
         dsign (dadd (Fin 1%Qc) (dmul (EventRescale.scale self) v)) = Some true ->
         exists y, assoc col (data X') = Some y /\ nth_error y i = Some NaN.
Proof.
  intros Hwf Hlog.
  destruct (rescale_transform_returns ln X self Hwf) as [X' Hrun].
  exists X'. split; [exact Hrun|].
  intros col x i v Hx Hv Hneg.
  destruct (rescale_transform_spec _ _ _ _ _ Hwf Hrun) as (_ & _ & _ & Hcols).
  rewrite (Hcols _ _ Hx). unfold spec_rescale. rewrite Hlog.
  eexists. split; [reflexivity|].
  rewrite nth_error_map, Hv. simpl. f_equal. now apply dlog_negative.
Qed.

Lemma event_rescale_log_of_negative_is_nan_witness :
  exists X',
    EventRescale.transform ln_stub negative_table
      (EventRescale.__init__ true (dbl 5))
    = (Ok X', EventRescale.__init__ true (dbl 5))
    /\ forall col x i v,
         assoc col (data negative_table) = Some x ->
         nth_error x i = Some v ->
         dsign (dadd (Fin 1%Qc) (dmul (dbl 5) v)) = Some true ->
         exists y, assoc col (data X') = Some y /\ nth_error y i = Some NaN.
Proof.
  apply (event_rescale_log_of_negative_is_nan ln_stub negative_table
           (EventRescale.__init__ true (dbl 5))).
  - apply (bool_decide_unpack _). vm_compute. exact I.
  - reflexivity.
Defined.

(** C8, as stated, fails: after [fit], a [transform] of a table with the
    column [a] and then a [transform] of a table with the column [b] alone,
    [fit_params] of [MedianFilterDetrend] has the keys [a] and [b]. *)
Lemma median_fit_params_accumulate :
  columns other_table = ["b"]
  /\ dom <$> MedianFilterDetrend.fit_params
               (snd (MedianFilterDetrend.transform other_table
                       (snd (MedianFilterDetrend.fit_transform short_table
                               (MedianFilterDetrend.__init__ 3 (dbl 4))))))
     = Some ({["a"; "b"]} : gset string).
Proof. split; [reflexivity|]. vm_compute. reflexivity. Qed.

(** C8, amended.  [fit] empties [fit_params].  A [transform] of
    [MedianFilterDetrend], [SavGolFilterDetrend] or [OASISInferer] that
    returns has added the columns of its table to the keys that were there:
    the key set is the earlier key set united with the column set, hence the
    column set itself when [fit] ran just before, as in [fit_transform].
    [EventRescale.transform] leaves the instance as it was. *)
Theorem transform_adds_columns_to_fit_params (X : DataFrame) :
  adds_columns_to_keys MedianFilterDetrend.fit_params
    (MedianFilterDetrend.transform X) X
  /\ (forall savgol_filter,
        adds_columns_to_keys SavGolFilterDetrend.fit_params
          (SavGolFilterDetrend.transform savgol_filter X) X)
  /\ (forall deconvolve,
        adds_columns_to_keys OASISInferer.fit_params
          (OASISInferer.transform deconvolve X) X)
  /\ (forall ln self X' self',
        EventRescale.transform ln X self = (Ok X', self') -> self' = self)
  /\ (forall self,
        MedianFilterDetrend.fit_params (snd (MedianFilterDetrend.fit X self))
        = Some ∅)
  /\ (forall self,
        SavGolFilterDetrend.fit_params (snd (SavGolFilterDetrend.fit X self))
        = Some ∅)
  /\ (forall self,
        OASISInferer.fit_params (snd (OASISInferer.fit X self)) = Some ∅)
  /\ (forall self,
        EventRescale.fit_params (snd (EventRescale.fit X self)) = Some ∅)
  /\ (forall self X' self',
        MedianFilterDetrend.fit_transform X self = (Ok X', self') ->
        dom <$> MedianFilterDetrend.fit_params self'
        = Some (list_to_set (columns X) : gset string)).
Proof.
  repeat apply conj; try reflexivity.
  - intros self X' self' m0. apply median_transform_keys.
  - intros sf self X' self' m0. apply savgol_transform_keys.
  - intros dec self X' self' m0. apply oasis_transform_keys.
  - intros ln self X' self'. apply rescale_transform_state.
  - intros self X' self'.
    unfold MedianFilterDetrend.fit_transform, bind, MedianFilterDetrend.fit.
    intros Hrun.
    eapply median_transform_keys in Hrun as (m & -> & Hdom); [|reflexivity].
    simpl. f_equal. rewrite Hdom. set_solver.
Qed.

Lemma transform_adds_columns_to_fit_params_witness :
  dom <$> MedianFilterDetrend.fit_params
            (snd (MedianFilterDetrend.fit_transform short_table
                    (MedianFilterDetrend.__init__ 3 (dbl 4))))
  = Some (list_to_set (columns short_table) : gset string).
Proof.
  destruct (transform_adds_columns_to_fit_params short_table)
    as (_ & _ & _ & _ & _ & _ & _ & _ & H).
  destruct (MedianFilterDetrend.fit_transform short_table
              (MedianFilterDetrend.__init__ 3 (dbl 4)))
    as [[X'|e] self'] eqn:Hrun.
  - exact (H _ _ _ Hrun).
  - vm_compute in Hrun. discriminate.
Defined.

(** C9.  A table passed to the [transform] of [MedianFilterDetrend],
    [SavGolFilterDetrend], [EventRescale] or [OASISInferer] holds after the
    call the values it held before: whatever the configuration and whether
    the call returns or raises, the frame and the arrays of its columns are
    what they were. *)
Theorem transform_leaves_input_as_it_was (w : world) (X : nat) (T : DataFrame) :
  read_frame w X = Some T ->
  (forall window peak_std_threshold,
      read_frame (snd (median_transform_ref window peak_std_threshold X w)) X
      = Some T)
  /\ (forall savgol_filter window order,
        read_frame (snd (savgol_transform_ref savgol_filter window order X w)) X
        = Some T)
  /\ (forall ln log_transform scale,
        read_frame (snd (rescale_transform_ref ln log_transform scale X w)) X
        = Some T)
  /\ (forall deconvolve overwrite output,
        read_frame (snd (oasis_transform_ref deconvolve overwrite output X w)) X
        = Some T).
Proof.
  intros HT. repeat apply conj; intros;
    (eapply read_frame_untouched; [|exact HT]);
    eapply writes_above_untouched.
  - apply median_transform_ref_writes.
  - apply savgol_transform_ref_writes.
  - apply rescale_transform_ref_writes.
  - apply oasis_transform_ref_writes.
Qed.

Lemma transform_leaves_input_as_it_was_witness :
  read_frame (snd (rescale_transform_ref ln_stub true (dbl 5) 1 sample_world)) 1
  = Some {| index_len := 3; data := [("a", [dbl 1; dbl 5; dbl 2])] |}.
Proof.
  apply (transform_leaves_input_as_it_was sample_world 1
           {| index_len := 3; data := [("a", [dbl 1; dbl 5; dbl 2])] |}).
  apply (bool_decide_unpack _). vm_compute. exact I.
Defined.

(** C10, as stated, fails on [np.double]: in binary64 [robust_std] of
    [0, 1, 3] is 1.4826, and after 2^60 is added, which rounds the three sums
    to the same number, it is 0. *)
Lemma robust_std_shift_rounds_away :
  robust_std_in binary64 [0; 1; 3]%float = 0x1.7b8bac710cb29p+0%float
  /\ robust_std_in binary64 (shift_in binary64 [0; 1; 3]%float 0x1p+60%float)
     = 0%float
  /\ PrimFloat.eqb
       (robust_std_in binary64 (shift_in binary64 [0; 1; 3]%float 0x1p+60%float))
       (robust_std_in binary64 [0; 1; 3]%float)
     = false.
Proof. vm_compute. repeat split; reflexivity. Qed.

(** C10, amended.  In any arithmetic, [robust_std] of [x + C] is
    [robust_std] of [x] for a non-empty [x] on which adding [C] is exact:
    [x] holds no nan, and on its elements the addition keeps the order,
    commutes with the midpoint of two elements and leaves the difference to
    the median as it is. *)
Theorem robust_std_shift_invariant_where_exact
    (A : arithmetic) (x : list (num A)) (C : num A) :
  x <> [] ->
  shift_is_exact A x C ->
  robust_std_in A (shift_in A x C) = robust_std_in A x.
Proof.
  intros Hne Hex. unfold robust_std_in, shift_in.
  rewrite (median_in_shift A C x Hne Hex), !map_map.
  destruct Hex as (_ & _ & _ & Hdev).
  f_equal. f_equal. apply Forall_fmap_ext_1.
  eapply Forall_impl; [exact Hdev|].
  intros a Ha. simpl. now rewrite Ha.
Qed.

Lemma robust_std_shift_invariant_where_exact_witness :
  robust_std_in binary64 (shift_in binary64 [0; 1; 3]%float 2%float)
  = robust_std_in binary64 [0; 1; 3]%float.
Proof.
  apply (robust_std_shift_invariant_where_exact binary64 [0; 1; 3]%float 2%float).
  - discriminate.
  - unfold shift_is_exact.
    repeat apply conj; repeat (constructor; try (vm_compute; reflexivity)).
Defined.

(** * Further properties of the transformers *)

(** ** The order of [np.sort] *)

Lemma Qcleb_total p q : Qcleb p q = true \/ Qcleb q p = true.
Proof.
  rewrite !Qcleb_le. destruct (Qclt_le_dec p q) as [H|H]; [left|right]; auto.
  now apply Qclt_le_weak.
Qed.

Lemma dleb_total a b : dleb a b = true \/ dleb b a = true.
Proof.
  destruct a as [p| | |], b as [q| | |]; simpl; auto. apply Qcleb_total.
Qed.

Global Instance dle_trans : Transitive dle.
Proof.
  intros a b c. unfold dle.
  destruct a as [p| | |], b as [q| | |], c as [r| | |]; simpl;
    try discriminate; auto.
  rewrite !Qcleb_le. apply Qcle_trans.
Qed.

Global Instance dle_antisym : AntiSymm (=) dle.
Proof.
  intros a b. unfold dle.
  destruct a as [p| | |], b as [q| | |]; simpl; try discriminate; auto.
  rewrite !Qcleb_le. intros H1 H2. f_equal. now apply Qcle_antisym.
Qed.

Lemma insert_sorted_Permutation a l : insert_sorted a l ≡ₚ a :: l.
Proof.
  induction l as [|b l IH]; simpl; [reflexivity|].
  destruct (dleb a b); [reflexivity|].
  rewrite IH. apply Permutation_swap.
Qed.

Lemma np_sort_Permutation l : np_sort l ≡ₚ l.
Proof.
  unfold np_sort. induction l as [|a l IH]; simpl; [reflexivity|].
  now rewrite insert_sorted_Permutation, IH.
Qed.

Lemma insert_sorted_Sorted a l : Sorted dle l -> Sorted dle (insert_sorted a l).
Proof.
  induction 1 as [|b l Hl IH Hb]; simpl.
  - repeat constructor.
  - destruct (dleb a b) eqn:Hab.
    + constructor; [now constructor|]. constructor. exact Hab.
    + constructor; [exact IH|].
      assert (Hba : dle b a).
      { destruct (dleb_total a b) as [H|H]; [congruence|exact H]. }
      destruct Hb as [|c l' Hbc]; simpl.
      * constructor. exact Hba.
      * destruct (dleb a c); constructor; assumption.
Qed.

Lemma np_sort_Sorted l : Sorted dle (np_sort l).
Proof.
  unfold np_sort. induction l as [|a l IH]; simpl; [constructor|].
  now apply insert_sorted_Sorted.
Qed.

(** [np.sort] depends on the values in the array, not on their order. *)
Lemma np_sort_of_Permutation l1 l2 : l1 ≡ₚ l2 -> np_sort l1 = np_sort l2.
Proof.
  intros Hp. apply (Sorted_unique dle); try apply np_sort_Sorted.
  now rewrite !np_sort_Permutation.
Qed.

Lemma existsb_Permutation {A} (f : A -> bool) l1 l2 :
  l1 ≡ₚ l2 -> existsb f l1 = existsb f l2.
Proof.
  induction 1 as [|x l1 l2 _ IH|x y l|l1 l2 l3 _ IH1 _ IH2]; simpl.
  - reflexivity.
  - now rewrite IH.
  - destruct (f x), (f y); reflexivity.
  - congruence.
Qed.

Lemma np_median_of_Permutation l1 l2 : l1 ≡ₚ l2 -> np_median l1 = np_median l2.
Proof.
  intros Hp. unfold np_median.
  now rewrite (np_sort_of_Permutation _ _ Hp), (existsb_Permutation _ _ _ Hp),
    (Permutation_length Hp).
Qed.

(** X1.  [robust_std] depends on the values in its argument, not on their
    order: two arrays that are permutations of each other have the same
    [robust_std]. *)
Theorem robust_std_of_Permutation (x y : ndarray) :
  x ≡ₚ y -> MedianFilterDetrend.robust_std x = MedianFilterDetrend.robust_std y.
Proof.
  intros Hp. unfold MedianFilterDetrend.robust_std, np_abs, np_sub_scalar.
  rewrite (np_median_of_Permutation _ _ Hp). f_equal.
  apply np_median_of_Permutation. now do 2 apply Permutation_map.
Qed.

Lemma robust_std_of_Permutation_witness :
  MedianFilterDetrend.robust_std [dbl 3; dbl 1; dbl 2]
  = MedianFilterDetrend.robust_std [dbl 1; dbl 2; dbl 3].
Proof.
  apply (robust_std_of_Permutation [dbl 3; dbl 1; dbl 2] [dbl 1; dbl 2; dbl 3]).
  apply (bool_decide_unpack _). vm_compute. exact I.
Defined.

(** ** The median stays within a class of values *)

Lemma np_median_closed (P : double -> Prop) x :
  (forall a, P a -> is_nan a = false) ->
  (forall a b, P a -> P b -> P (ddiv (dadd a b) (Fin (Q2Qc 2)))) ->
  x <> [] -> Forall P x -> P (np_median x).
Proof.
  intros Hnan Hmid Hne HP. unfold np_median.
  assert (Hex : existsb is_nan x = false).
  { clear Hne. induction HP as [|a l Ha Hl IH]; simpl; [reflexivity|].
    now rewrite (Hnan a Ha). }
  rewrite Hex.
  destruct (Nat.eqb_spec (length x) 0) as [H0|H0].
  { apply length_zero_iff_nil in H0. contradiction. }
  pose proof (np_sort_Forall _ _ HP) as Hs.
  pose proof (np_sort_length x) as Hl.
  assert (Hnth : forall i, (i < length x)%nat -> P (nth i (np_sort x) NaN)).
  { intros i Hi. eapply Forall_nth in Hs; eauto. lia. }
  destruct (Nat.odd (length x)).
  - apply Hnth. apply Nat.div_lt; lia.
  - apply Hmid; apply Hnth.
    + pose proof (Nat.div_lt (length x) 2). lia.
    + apply Nat.div_lt; lia.
Qed.

Lemma nonneg_midpoint a b :
  nonneg a -> nonneg b -> nonneg (ddiv (dadd a b) (Fin (Q2Qc 2))).
Proof.
  destruct a as [p| | |], b as [q| | |]; simpl; try contradiction.
  intros Hp Hq. unfold ddiv.
  replace (Qceqb (Q2Qc 2) 0%Qc) with false by reflexivity. simpl.
  replace 0%Qc with (0 * / Q2Qc 2)%Qc by ring.
  apply Qcmult_le_compat_r; [|discriminate].
  replace 0%Qc with (0 + 0)%Qc by ring. now apply Qcplus_le_compat.
Qed.

Lemma Qcltb_true a b : Qcltb a b = true -> (a < b)%Qc.
Proof.
  unfold Qcltb. intros H. apply negb_true_iff in H.
  apply Qcnot_le_lt. intros Hle. apply Qcleb_le in Hle.
  unfold Qcleb in Hle. congruence.
Qed.

Lemma Qcltb_false_le a b : Qcltb a b = false -> (b <= a)%Qc.
Proof.
  unfold Qcltb. intros H. apply negb_false_iff in H. now apply Qcleb_le.
Qed.

Lemma dabs_nonneg a : is_finite a -> nonneg (dabs a).
Proof.
  destruct a as [q| | |]; simpl; try contradiction. intros _.
  destruct (Qcltb q 0%Qc) eqn:Hq.
  - apply Qcltb_true in Hq. apply Qclt_le_weak in Hq.
    apply Qcopp_le_compat in Hq. exact Hq.
  - now apply Qcltb_false_le.
Qed.

(** In exact arithmetic [robust_std] of a non-empty array of finite values
    is a finite number that is not below zero. *)
Theorem robust_std_nonnegative (x : list Qc) :
  x <> [] ->
  exists r : Qc, MedianFilterDetrend.robust_std (map Fin x) = Fin r /\ (0 <= r)%Qc.
Proof.
  intros Hne. unfold MedianFilterDetrend.robust_std.
  assert (Hfin : Forall is_finite (map Fin x)).
  { apply Forall_map, Forall_forall. intros q _. exact I. }
  destruct (np_median_finite (map Fin x)) as [m Hm]; [|exact Hfin|].
  { destruct x; [contradiction|discriminate]. }
  rewrite Hm.
  assert (HP : nonneg (np_median (np_abs (np_sub_scalar (map Fin x) (Fin m))))).
  { apply np_median_closed.
    - intros [q| | |]; simpl; try contradiction. reflexivity.
    - apply nonneg_midpoint.
    - destruct x; [contradiction|discriminate].
    - unfold np_abs, np_sub_scalar. rewrite !map_map.
      apply Forall_map, Forall_forall. intros q _. now apply dabs_nonneg. }
  set (mad := np_median (np_abs _)) in *.
  destruct mad as [q| | |]; simpl in HP; try contradiction.
  simpl. eexists. split; [reflexivity|].
  replace 0%Qc with (0 * q)%Qc by ring.
  apply Qcmult_le_compat_r; [discriminate|exact HP].
Qed.

Lemma robust_std_nonnegative_witness :
  exists r : Qc,
    MedianFilterDetrend.robust_std (map Fin [Q2Qc 3; Q2Qc (-1); Q2Qc 2]) = Fin r
    /\ (0 <= r)%Qc.
Proof.
  apply (robust_std_nonnegative [Q2Qc 3; Q2Qc (-1); Q2Qc 2]). discriminate.
Defined.

Lemma np_median_replicate v n :
  is_finite v -> (1 <= n)%nat -> np_median (replicate n v) = v.
Proof.
  intros Hv Hn. unfold np_median.
  rewrite finite_not_nan by (now apply Forall_replicate).
  rewrite length_replicate, np_sort_replicate.
  2:{ destruct v; simpl in *; try contradiction. apply Qcleb_le, Qcle_refl. }
  destruct (Nat.eqb_spec n 0); [lia|].
  destruct (Nat.odd n).
  - apply nth_replicate_lt. apply Nat.div_lt; lia.
  - rewrite !nth_replicate_lt.
    + destruct v as [q| | |]; simpl in *; try contradiction.
      unfold ddiv. replace (Qceqb (Q2Qc 2) 0%Qc) with false by reflexivity.
      f_equal.
      replace (Q2Qc 2) with (1 + 1)%Qc by (apply Qc_is_canon; reflexivity).
      field. discriminate.
    + apply Nat.div_lt; lia.
    + pose proof (Nat.div_lt n 2). lia.
Qed.

(** In exact arithmetic [robust_std] of a non-empty array that holds one
    finite value throughout is zero. *)
Theorem robust_std_constant (c : Qc) (n : nat) :
  (1 <= n)%nat ->
  MedianFilterDetrend.robust_std (replicate n (Fin c)) = Fin 0%Qc.
Proof.
  intros Hn. unfold MedianFilterDetrend.robust_std, np_abs, np_sub_scalar.
  rewrite np_median_replicate by (auto; exact I).
  change (map ?f (replicate n ?v)) with (f <$> replicate n v).
  rewrite !fmap_replicate.
  rewrite np_median_replicate by (auto; exact I).
  unfold dsub. simpl.
  replace (c + - c)%Qc with 0%Qc by ring. simpl. f_equal. ring.
Qed.

Lemma robust_std_constant_witness :
  MedianFilterDetrend.robust_std (replicate 4 (Fin (Q2Qc 7))) = Fin 0%Qc.
Proof. apply (robust_std_constant (Q2Qc 7) 4). lia. Defined.

(** ** Sorting and the median under a positive factor *)

Lemma Qcleb_scale p q k : (0 < k)%Qc -> Qcleb (p * k) (q * k) = Qcleb p q.
Proof.
  intros Hk. apply eq_true_iff_eq. rewrite !Qcleb_le. split.
  - now apply Qcmult_lt_0_le_reg_r.
  - intros H. apply Qcmult_le_compat_r; [exact H|now apply Qclt_le_weak].
Qed.

Lemma Qcltb_lt a b : (a < b)%Qc -> Qcltb a b = true.
Proof.
  intros H. unfold Qcltb. apply negb_true_iff.
  destruct (Qle_bool (this b) (this a)) eqn:Hle; [|reflexivity].
  apply Qle_bool_iff in Hle. exfalso. now apply (Qclt_not_le a b).
Qed.

Lemma dsign_positive k : (0 < k)%Qc -> dsign (Fin k) = Some false.
Proof.
  intros Hk. simpl.
  rewrite (Qcltb_false k 0%Qc) by now apply Qclt_le_weak.
  now rewrite Qcltb_lt.
Qed.

Section Scale.
Variable k : Qc.
Hypothesis k_positive : (0 < k)%Qc.
Let scale (v : double) : double := dmul v (Fin k).

Lemma scale_Fin p : scale (Fin p) = Fin (p * k)%Qc.
Proof. reflexivity. Qed.

Lemma scale_NaN : scale NaN = NaN.
Proof. reflexivity. Qed.

Lemma scale_PInf : scale PInf = PInf.
Proof. unfold scale, dmul. now rewrite dsign_positive. Qed.

Lemma scale_NInf : scale NInf = NInf.
Proof. unfold scale, dmul. now rewrite dsign_positive. Qed.

Lemma dleb_scale a b : dleb (scale a) (scale b) = dleb a b.
Proof.
  destruct a, b;
    rewrite ?scale_Fin, ?scale_NaN, ?scale_PInf, ?scale_NInf;
    try reflexivity.
  simpl. now apply Qcleb_scale.
Qed.

Lemma is_nan_scale a : is_nan (scale a) = is_nan a.
Proof.
  destruct a; rewrite ?scale_Fin, ?scale_NaN, ?scale_PInf, ?scale_NInf;
    reflexivity.
Qed.

Lemma insert_sorted_scale a l :
  insert_sorted (scale a) (map scale l) = map scale (insert_sorted a l).
Proof.
  induction l as [|b l IH]; simpl; [reflexivity|].
  rewrite dleb_scale. destruct (dleb a b); simpl; [reflexivity|].
  now rewrite IH.
Qed.

Lemma np_sort_scale l : np_sort (map scale l) = map scale (np_sort l).
Proof.
  unfold np_sort. induction l as [|a l IH]; simpl; [reflexivity|].
  now rewrite IH, insert_sorted_scale.
Qed.

Lemma nth_scale n l : nth n (map scale l) NaN = scale (nth n l NaN).
Proof. rewrite <- scale_NaN at 1. apply map_nth. Qed.

Lemma halve_scale a b :
  ddiv (dadd (scale a) (scale b)) (Fin (Q2Qc 2))
  = scale (ddiv (dadd a b) (Fin (Q2Qc 2))).
Proof.
  assert (H2 : Qcltb (Q2Qc 2) 0%Qc = false) by reflexivity.
  assert (H0 : Qceqb (Q2Qc 2) 0%Qc = false) by reflexivity.
  destruct a as [p| | |], b as [q| | |];
    rewrite ?scale_Fin, ?scale_NaN, ?scale_PInf, ?scale_NInf;
    cbn [dadd]; unfold ddiv; rewrite ?H0;
    cbn [dsign inf_of_sign xorb]; rewrite ?H2;
    cbn [inf_of_sign xorb];
    rewrite ?scale_Fin, ?scale_NaN, ?scale_PInf, ?scale_NInf;
    try reflexivity.
  f_equal.
  replace (Q2Qc 2) with (1 + 1)%Qc by (apply Qc_is_canon; reflexivity).
  field. discriminate.
Qed.

(** [np.median(x * k) = np.median(x) * k] *)
Lemma np_median_scale x : np_median (map scale x) = scale (np_median x).
Proof.
  unfold np_median. rewrite length_map, np_sort_scale.
  replace (existsb is_nan (map scale x)) with (existsb is_nan x).
  2:{ induction x as [|a x IH]; simpl; [reflexivity|].
      now rewrite is_nan_scale, IH. }
  destruct (existsb is_nan x); [now rewrite scale_NaN|].
  destruct (Nat.eqb (length x) 0); [now rewrite scale_NaN|].
  destruct (Nat.odd (length x)).
  - apply nth_scale.
  - rewrite !nth_scale. apply halve_scale.
Qed.

Lemma Qcltb_scale_zero a : Qcltb (a * k) 0%Qc = Qcltb a 0%Qc.
Proof.
  unfold Qcltb. f_equal.
  change (Qcleb 0%Qc (a * k) = Qcleb 0%Qc a).
  replace 0%Qc with (0 * k)%Qc at 1 by ring. now apply Qcleb_scale.
Qed.

Lemma deviation_scale v m :
  dabs (dsub (scale v) (scale m)) = scale (dabs (dsub v m)).
Proof.
  destruct v as [p| | |], m as [q| | |];
    rewrite ?scale_Fin, ?scale_NaN, ?scale_PInf, ?scale_NInf;
    unfold dsub; cbn [dneg dadd dabs];
    rewrite ?scale_Fin, ?scale_NaN, ?scale_PInf, ?scale_NInf;
    try reflexivity.
  f_equal.
  replace (p * k + - (q * k))%Qc with ((p + - q) * k)%Qc by ring.
  rewrite Qcltb_scale_zero. destruct (Qcltb (p + - q) 0%Qc); ring.
Qed.

(** [robust_std(x * k) = robust_std(x) * k], on every array. *)
Lemma robust_std_scale x :
  MedianFilterDetrend.robust_std (np_mul_scalar x (Fin k))
  = dmul (MedianFilterDetrend.robust_std x) (Fin k).
Proof.
  unfold MedianFilterDetrend.robust_std, np_abs, np_sub_scalar, np_mul_scalar.
  change (fun v => dmul v (Fin k)) with scale.
  rewrite np_median_scale, !map_map.
  replace (map (fun v => dabs (dsub (scale v) (scale (np_median x)))) x)
    with (map scale (map (fun v => dabs (dsub v (np_median x))) x)).
  2:{ rewrite map_map. apply map_ext. intros v. now rewrite deviation_scale. }
  rewrite np_median_scale.
  fold (scale (dmul (Fin (Q2Qc (14826 # 10000)))
                 (np_median (map (fun v => dabs (dsub v (np_median x))) x)))).
  assert (Hc : dsign (Fin (Q2Qc (14826 # 10000))) = Some false) by reflexivity.
  destruct (np_median (map _ x)) as [q| | |];
    rewrite ?scale_Fin, ?scale_NaN, ?scale_PInf, ?scale_NInf;
    cbn [dmul]; rewrite ?Hc; cbn [dsign inf_of_sign xorb];
    rewrite ?scale_Fin, ?scale_NaN, ?scale_PInf, ?scale_NInf;
    try reflexivity.
  f_equal. ring.
Qed.
End Scale.

(** In exact arithmetic, multiplying a non-empty array of finite values by a
    finite factor [k > 0] multiplies its [robust_std] by [k]. *)
Theorem robust_std_scales (x : list Qc) (k : Qc) :
  x <> [] -> (0 < k)%Qc ->
  exists r : Qc,
    MedianFilterDetrend.robust_std (map Fin x) = Fin r
    /\ MedianFilterDetrend.robust_std (np_mul_scalar (map Fin x) (Fin k))
       = Fin (r * k)%Qc.
Proof.
  intros Hne Hk.
  destruct (robust_std_finite (map Fin x)) as [r Hr].
  - destruct x; [contradiction|discriminate].
  - apply Forall_map, Forall_forall. intros q _. exact I.
  - exists r. split; [exact Hr|]. now rewrite robust_std_scale, Hr.
Qed.

Lemma robust_std_scales_witness :
  exists r : Qc,
    MedianFilterDetrend.robust_std (map Fin [Q2Qc 0; Q2Qc 1; Q2Qc 4]) = Fin r
    /\ MedianFilterDetrend.robust_std
         (np_mul_scalar (map Fin [Q2Qc 0; Q2Qc 1; Q2Qc 4]) (Fin (Q2Qc 3)))
       = Fin (r * Q2Qc 3)%Qc.
Proof.
  apply (robust_std_scales [Q2Qc 0; Q2Qc 1; Q2Qc 4] (Q2Qc 3)).
  - discriminate.
  - reflexivity.
Defined.

(** ** The instance after a transform, whether it returns or raises *)

Lemma for_each_outcome {S A B} (I : S -> Prop) (l : list A)
    (body : A -> B -> py S B) acc s :
  (forall a b s, I s -> I (snd (body a b s))) ->
  I s -> I (snd (for_each l body acc s)).
Proof.
  intros Hbody. revert acc s.
  induction l as [|a l IH]; intros acc s Hs; simpl; [exact Hs|].
  unfold bind. specialize (Hbody a acc s Hs).
  destruct (body a acc s) as [[b|e] s1]; simpl in *; auto.
Qed.

Lemma column_body_state {S} (compute : string -> py S ndarray) col X_new s :
  snd (column_body compute col X_new s) = snd (compute col s).
Proof.
  unfold column_body. destruct (compute col s) as [[d|e] s1]; reflexivity.
Qed.

Lemma median_compute_state X col s :
  let s' := snd (median_compute X col s) in
  MedianFilterDetrend.window s' = MedianFilterDetrend.window s
  /\ MedianFilterDetrend.peak_std_threshold s'
     = MedianFilterDetrend.peak_std_threshold s
  /\ (is_Some (MedianFilterDetrend.fit_params s')
      <-> is_Some (MedianFilterDetrend.fit_params s)).
Proof.
  unfold median_compute, bind, lift, ret, MedianFilterDetrend.set_fit_param.
  destruct (getitem X col); simpl; [|tauto].
  destruct (medfilt _ _); simpl; [|tauto].
  destruct (MedianFilterDetrend.fit_params s) eqn:Hfp; simpl; [|now rewrite Hfp].
  repeat split; eauto.
Qed.

Lemma savgol_compute_state sf X col s :
  let s' := snd (savgol_compute sf X col s) in
  SavGolFilterDetrend.window s' = SavGolFilterDetrend.window s
  /\ SavGolFilterDetrend.order s' = SavGolFilterDetrend.order s
  /\ (is_Some (SavGolFilterDetrend.fit_params s')
      <-> is_Some (SavGolFilterDetrend.fit_params s)).
Proof.
  unfold savgol_compute, bind, lift, ret, SavGolFilterDetrend.set_fit_param.
  destruct (getitem X col); simpl; [|tauto].
  destruct (sf _ _ _); simpl; [|tauto].
  destruct (SavGolFilterDetrend.fit_params s) eqn:Hfp; simpl; [|now rewrite Hfp].
  repeat split; eauto.
Qed.

Lemma oasis_compute_state dec X col s :
  let s' := snd (oasis_compute dec X col s) in
  OASISInferer.with_fit_params s' None = OASISInferer.with_fit_params s None
  /\ (is_Some (OASISInferer.fit_params s')
      <-> is_Some (OASISInferer.fit_params s)).
Proof.
  unfold oasis_compute, bind, lift, ret, raise, OASISInferer.set_fit_param.
  destruct (getitem X col); simpl; [|tauto].
  destruct (dec _ _ _ _ _ _ _ _); simpl; [|tauto].
  destruct (OASISInferer.fit_params s) eqn:Hfp; simpl; [|now rewrite Hfp].
  destruct (String.eqb (OASISInferer.output s) "denoised");
    [|destruct (String.eqb (OASISInferer.output s) "spikes")];
    simpl; repeat split; eauto.
Qed.

Lemma rescale_compute_state ln X col s : snd (rescale_compute ln X col s) = s.
Proof.
  unfold rescale_compute, bind, lift, ret. destruct (getitem X col); reflexivity.
Qed.

(** X2.  A [transform] never changes the hyperparameters of its instance and
    never creates or deletes the attribute [fit_params], whether it returns
    or raises; [EventRescale.transform] leaves its instance exactly as it
    was. *)
Theorem transform_keeps_configuration (X : DataFrame) :
  (forall self,
      MedianFilterDetrend.window (snd (MedianFilterDetrend.transform X self))
      = MedianFilterDetrend.window self
      /\ MedianFilterDetrend.peak_std_threshold
           (snd (MedianFilterDetrend.transform X self))
         = MedianFilterDetrend.peak_std_threshold self
      /\ (is_Some (MedianFilterDetrend.fit_params
                     (snd (MedianFilterDetrend.transform X self)))
          <-> is_Some (MedianFilterDetrend.fit_params self)))
  /\ (forall savgol_filter self,
        SavGolFilterDetrend.window
          (snd (SavGolFilterDetrend.transform savgol_filter X self))
        = SavGolFilterDetrend.window self
        /\ SavGolFilterDetrend.order
             (snd (SavGolFilterDetrend.transform savgol_filter X self))
           = SavGolFilterDetrend.order self
        /\ (is_Some (SavGolFilterDetrend.fit_params
                       (snd (SavGolFilterDetrend.transform savgol_filter X self)))
            <-> is_Some (SavGolFilterDetrend.fit_params self)))
  /\ (forall ln self, snd (EventRescale.transform ln X self) = self)
  /\ (forall deconvolve self,
        OASISInferer.with_fit_params
          (snd (OASISInferer.transform deconvolve X self)) None
        = OASISInferer.with_fit_params self None
        /\ (is_Some (OASISInferer.fit_params
                       (snd (OASISInferer.transform deconvolve X self)))
            <-> is_Some (OASISInferer.fit_params self))).
Proof.
  repeat apply conj.
  - intros self. rewrite median_transform_loop.
    apply (for_each_outcome
             (fun s =>
                MedianFilterDetrend.window s = MedianFilterDetrend.window self
                /\ MedianFilterDetrend.peak_std_threshold s
                   = MedianFilterDetrend.peak_std_threshold self
                /\ (is_Some (MedianFilterDetrend.fit_params s)
                    <-> is_Some (MedianFilterDetrend.fit_params self))));
      [|tauto].
    intros col X_new s (Hw & Ht & Hfp). rewrite column_body_state.
    destruct (median_compute_state X col s) as (Hw' & Ht' & Hfp').
    rewrite Hw', Ht', Hfp'. auto.
  - intros sf self. rewrite savgol_transform_loop.
    apply (for_each_outcome
             (fun s =>
                SavGolFilterDetrend.window s = SavGolFilterDetrend.window self
                /\ SavGolFilterDetrend.order s = SavGolFilterDetrend.order self
                /\ (is_Some (SavGolFilterDetrend.fit_params s)
                    <-> is_Some (SavGolFilterDetrend.fit_params self))));
      [|tauto].
    intros col X_new s (Hw & Ho & Hfp). rewrite column_body_state.
    destruct (savgol_compute_state sf X col s) as (Hw' & Ho' & Hfp').
    rewrite Hw', Ho', Hfp'. auto.
  - intros ln self. rewrite rescale_transform_loop.
    apply (for_each_outcome (fun s => s = self)); [|reflexivity].
    intros col X_new s ->. rewrite column_body_state.
    apply rescale_compute_state.
  - intros dec self. rewrite oasis_transform_loop.
    apply (for_each_outcome
             (fun s =>
                OASISInferer.with_fit_params s None
                = OASISInferer.with_fit_params self None
                /\ (is_Some (OASISInferer.fit_params s)
                    <-> is_Some (OASISInferer.fit_params self))));
      [|tauto].
    intros col X_new s (Hc & Hfp). rewrite column_body_state.
    destruct (oasis_compute_state dec X col s) as (Hc' & Hfp').
    rewrite Hc', Hfp'. auto.
Qed.

(** ** A transform before any fit *)

(** X3.  On a table with at least one column, a [transform] called before any
    [fit] raises [AttributeError]: [MedianFilterDetrend] (with an odd positive
    window), [SavGolFilterDetrend] and [OASISInferer] (when the filter and the
    solver accept the first column) assign to [self.fit_params], which only
    [fit] creates.  The instance is left as it was. *)
Theorem transform_before_fit_raises (X : DataFrame) :
  data X <> [] ->
  (forall self,
      MedianFilterDetrend.fit_params self = None ->
      MedianFilterDetrend.window self mod 2 = 1 ->
      0 < MedianFilterDetrend.window self ->
      MedianFilterDetrend.transform X self
      = (Err (AttributeError "fit_params"), self))
  /\ (forall savgol_filter self,
        SavGolFilterDetrend.fit_params self = None ->
        (forall x, is_Ok (savgol_filter x (SavGolFilterDetrend.window self)
                            (SavGolFilterDetrend.order self)) = true) ->
        SavGolFilterDetrend.transform savgol_filter X self
        = (Err (AttributeError "fit_params"), self))
  /\ (forall deconvolve self,
        OASISInferer.fit_params self = None ->
        (forall y, is_Ok (deconvolve y (OASISInferer.cfg_g self)
                            (OASISInferer.cfg_sn self) (OASISInferer.cfg_b self)
                            (OASISInferer.b_nonneg self)
                            (OASISInferer.optimize_g self)
                            (OASISInferer.penalty self)
                            (OASISInferer.kwargs self)) = true) ->
        OASISInferer.transform deconvolve X self
        = (Err (AttributeError "fit_params"), self)).
Proof.
  intros Hne. unfold columns.
  destruct (data X) as [|[c x] d] eqn:Hd; [contradiction|].
  repeat apply conj.
  - intros self Hfp Hodd Hpos. rewrite median_transform_loop.
    unfold columns. rewrite Hd. simpl. apply column_loop_raises.
    unfold median_compute, bind, lift, ret, getitem,
      MedianFilterDetrend.set_fit_param.
    rewrite Hd. simpl. rewrite String.eqb_refl.
    destruct (medfilt_odd x _ Hodd Hpos) as [b ->]. now rewrite Hfp.
  - intros sf self Hfp Hsf. rewrite savgol_transform_loop.
    unfold columns. rewrite Hd. simpl. apply column_loop_raises.
    unfold savgol_compute, bind, lift, ret, getitem,
      SavGolFilterDetrend.set_fit_param.
    rewrite Hd. simpl. rewrite String.eqb_refl.
    specialize (Hsf x). destruct (sf x _ _); [|discriminate]. now rewrite Hfp.
  - intros dec self Hfp Hdec. rewrite oasis_transform_loop.
    unfold columns. rewrite Hd. simpl. apply column_loop_raises.
    unfold oasis_compute, bind, lift, ret, getitem,
      OASISInferer.set_fit_param.
    rewrite Hd. simpl. rewrite String.eqb_refl.
    specialize (Hdec x). destruct (dec x _ _ _ _ _ _ _); [|discriminate].
    now rewrite Hfp.
Qed.

Lemma transform_before_fit_raises_witness :
  MedianFilterDetrend.transform sample_table
    (MedianFilterDetrend.__init__ 3 (dbl 4))
  = (Err (AttributeError "fit_params"), MedianFilterDetrend.__init__ 3 (dbl 4)).
Proof.
  destruct (transform_before_fit_raises sample_table) as (H & _ & _).
  - discriminate.
  - apply H; reflexivity.
Defined.

(** ** [OASISInferer]: what it assigns, and in which order *)

Lemma dmaximum_zero_not_negative v : not_negative (dmaximum (Fin 0%Qc) v).
Proof.
  unfold not_negative.
  destruct v as [q| | |]; simpl; try discriminate.
  - destruct (Qcleb 0%Qc q) eqn:Hq; simpl; [|discriminate].
    apply Qcleb_le in Hq. rewrite (Qcltb_false q 0%Qc Hq).
    destruct (Qcltb 0%Qc q); discriminate.
Qed.

(** X4.  With [output='spikes'], once [fit] has run and for a solver that
    succeeds on every column and keeps its length, [OASISInferer.transform]
    returns a table no entry of which is a negative number. *)
Theorem oasis_spikes_are_not_negative
    (deconvolve : ndarray -> list (option double) -> option double ->
                  option double -> bool -> Z -> Z -> list (string * double) ->
                  result OASISInferer.solution)
    (X : DataFrame) (self : OASISInferer.t) :
  well_formed X ->
  is_Some (OASISInferer.fit_params self) ->
  OASISInferer.output self = "spikes" ->
  solver_keeps_length deconvolve ->
  (forall col y, assoc col (data X) = Some y ->
     is_Ok (deconvolve y (OASISInferer.cfg_g self) (OASISInferer.cfg_sn self)
              (OASISInferer.cfg_b self) (OASISInferer.b_nonneg self)
              (OASISInferer.optimize_g self) (OASISInferer.penalty self)
              (OASISInferer.kwargs self)) = true) ->
  exists X' self',
    OASISInferer.transform deconvolve X self = (Ok X', self')
    /\ forall col d, assoc col (data X') = Some d -> Forall not_negative d.
Proof.
  intros Hwf Hfp Hout Hkeep Hdec.
  destruct (oasis_transform_returns deconvolve X self Hwf Hfp (or_intror Hout)
              Hkeep Hdec) as (X' & self' & Hrun).
  exists X', self'. split; [exact Hrun|].
  destruct (oasis_transform_spec _ _ _ _ _ Hkeep Hwf Hrun)
    as (_ & Hsh & _ & Hcols).
  intros col d Hd.
  assert (Hin : col ∈ columns X).
  { rewrite <- (shape_columns _ _ Hsh). eapply assoc_Some_columns; eauto. }
  destruct (Hcols _ Hin) as (d' & Hd' & y & r & _ & _ & [[Ho _]|[_ ->]]).
  - rewrite Hout in Ho. discriminate.
  - assert (d = np_maximum_scalar (Fin 0%Qc) (OASISInferer.sol_s r)) as ->
      by congruence.
    unfold np_maximum_scalar. apply Forall_map, Forall_forall.
    intros v _. apply dmaximum_zero_not_negative.
Qed.

Lemma identity_solver_keeps_length : solver_keeps_length identity_solver.
Proof.
  intros y g sn b bn og p kw r [= <-]. simpl. auto.
Qed.

Lemma oasis_spikes_are_not_negative_witness :
  exists X' self',
    OASISInferer.transform identity_solver negative_table
      (snd (OASISInferer.fit negative_table
              (OASISInferer.__init__ "spikes" [None] None None true 0 0 [])))
    = (Ok X', self')
    /\ forall col d, assoc col (data X') = Some d -> Forall not_negative d.
Proof.
  apply (oasis_spikes_are_not_negative identity_solver negative_table
           (snd (OASISInferer.fit negative_table
                   (OASISInferer.__init__ "spikes" [None] None None true 0 0 [])))).
  - apply (bool_decide_unpack _). vm_compute. exact I.
  - simpl. eauto.
  - reflexivity.
  - apply identity_solver_keeps_length.
  - intros col y _. reflexivity.
Defined.

(** X5.  [OASISInferer.transform] records the solver's outputs before it looks
    at [output]: with an [output] that is neither ['denoised'] nor ['spikes'],
    once [fit] has run and when the solver succeeds on the first column, the
    call raises [NotImplementedError] and [fit_params] has gained the entry of
    that column. *)
Theorem oasis_unsupported_output_still_records
    (deconvolve : ndarray -> list (option double) -> option double ->
                  option double -> bool -> Z -> Z -> list (string * double) ->
                  result OASISInferer.solution)
    (X : DataFrame) (self : OASISInferer.t)
    (c : string) (y : ndarray) (rest : list (string * ndarray))
    (m : gmap string OASISInferer.params) (r : OASISInferer.solution) :
  data X = (c, y) :: rest ->
  OASISInferer.fit_params self = Some m ->
  OASISInferer.output self <> "denoised" ->
  OASISInferer.output self <> "spikes" ->
  deconvolve y (OASISInferer.cfg_g self) (OASISInferer.cfg_sn self)
    (OASISInferer.cfg_b self) (OASISInferer.b_nonneg self)
    (OASISInferer.optimize_g self) (OASISInferer.penalty self)
    (OASISInferer.kwargs self) = Ok r ->
  OASISInferer.transform deconvolve X self
  = (Err NotImplementedError,
     OASISInferer.with_fit_params self
       (Some (<[c := {| OASISInferer.b := OASISInferer.sol_b r;
                        OASISInferer.g := OASISInferer.sol_g r;
                        OASISInferer.lam := OASISInferer.sol_lam r |}]> m))).
Proof.
  intros Hd Hfp Hden Hspk Hr. rewrite oasis_transform_loop.
  unfold columns. rewrite Hd. simpl. apply column_loop_raises.
  unfold oasis_compute, bind, lift, ret, raise, getitem,
    OASISInferer.set_fit_param.
  rewrite Hd. simpl. rewrite String.eqb_refl, Hr, Hfp.
  cbn [OASISInferer.output OASISInferer.with_fit_params].
  destruct (String.eqb_spec (OASISInferer.output self) "denoised");
    [contradiction|].
  destruct (String.eqb_spec (OASISInferer.output self) "spikes");
    [contradiction|].
  reflexivity.
Qed.

Lemma oasis_unsupported_output_still_records_witness :
  OASISInferer.transform identity_solver short_table
    (snd (OASISInferer.fit short_table
            (OASISInferer.__init__ "other" [None] None None true 0 0 [])))
  = (Err NotImplementedError,
     OASISInferer.with_fit_params
       (snd (OASISInferer.fit short_table
               (OASISInferer.__init__ "other" [None] None None true 0 0 [])))
       (Some (<["a" := {| OASISInferer.b := Fin 0%Qc; OASISInferer.g := [];
                          OASISInferer.lam := Fin 0%Qc |}]> ∅))).
Proof.
  apply (oasis_unsupported_output_still_records identity_solver short_table
           (snd (OASISInferer.fit short_table
                   (OASISInferer.__init__ "other" [None] None None true 0 0 [])))
           "a" [dbl 1] [] ∅
           {| OASISInferer.sol_c := [dbl 1]; OASISInferer.sol_s := [dbl 1];
              OASISInferer.sol_b := Fin 0%Qc; OASISInferer.sol_g := [];
              OASISInferer.sol_lam := Fin 0%Qc |}).
  - reflexivity.
  - reflexivity.
  - discriminate.
  - discriminate.
  - reflexivity.
Defined.
